(** * meshoptimizer demo: the mesh identity oracle of [demo/main.cpp]

    A shallow embedding of the functions of [demo/main.cpp] that decide
    whether an optimisation pass preserved a mesh: [isMeshValid],
    [rotateTriangle], [hashRange], [hashMesh], [optRandomShuffle] and the
    harness [optimize]; and of what surrounds them: [generatePlane],
    [optNone], the closing assertions of [encodeIndex], the vertex count
    of [shadow], the LOD buffer of [simplify] and the two codec coverage
    tests.

    Conventions.
    - [unsigned int] values are [Z] in [0, 2^32), every wrapping operation is
      written out with [u32]; [size_t] values that can wrap are [Z] reduced
      with [usize] (an LP64 target, 64 bits).
    - Memory is bytes: a [float] is the four bytes of its object
      representation, a [Vertex] is eight of them, and the [union Triangle]
      is read either as three vertices or as [data], 96 bytes.
    - A read outside a buffer or a division by zero is undefined behaviour
      in the source; the embedding reports it as [None] ([Fault] for the
      fuelled loop) instead of inventing a value. *)

From Stdlib Require Import ZArith Strings.Byte.
From stdpp Require Import base numbers option list gmap.

Local Open Scope Z_scope.

(** ** Machine integers *)

Definition u32 (x : Z) : Z := x mod 2 ^ 32.

(** [size_t] on the LP64 targets the demo is built for. *)
Definition usize (x : Z) : Z := x mod 2 ^ 64.

Definition byte_val (b : byte) : Z := Z.of_N (Byte.to_N b).

(** ** Data model *)

(** Object representation of a [float]: [sizeof(float)] = 4 bytes. No
    function modelled here looks at the numeric value. *)
Record float := mkFloat { fb0 : byte; fb1 : byte; fb2 : byte; fb3 : byte }.

Definition float_bytes (f : float) : list byte :=
  [fb0 f; fb1 f; fb2 f; fb3 f].

(** [struct Vertex { float px, py, pz; float nx, ny, nz; float tx, ty; }] *)
Record Vertex := mkVertex {
  px : float; py : float; pz : float;
  nx : float; ny : float; nz : float;
  tx : float; ty : float
}.

Definition sizeof_Vertex : nat := 32.

(** The bytes [memcmp] and [hashRange] see behind a [Vertex]. *)
Definition Vertex_bytes (v : Vertex) : list byte :=
  float_bytes (px v) ++ float_bytes (py v) ++ float_bytes (pz v) ++
  float_bytes (nx v) ++ float_bytes (ny v) ++ float_bytes (nz v) ++
  float_bytes (tx v) ++ float_bytes (ty v).

(** [struct Mesh { std::vector<Vertex> vertices; std::vector<unsigned int> indices; }] *)
Record Mesh := mkMesh {
  vertices : list Vertex;
  indices : list N
}.

(** [union Triangle { Vertex v[3]; char data[sizeof(Vertex) * 3]; }] *)
Record Triangle := mkTriangle { v_0 : Vertex; v_1 : Vertex; v_2 : Vertex }.

Definition Triangle_data (t : Triangle) : list byte :=
  Vertex_bytes (v_0 t) ++ Vertex_bytes (v_1 t) ++ Vertex_bytes (v_2 t).

Definition sizeof_Triangle_data : nat := 3 * sizeof_Vertex.

(** ** [memcmp]

    Bytes are compared as [unsigned char], the first difference decides.
    Only the sign of the result is specified by C; the difference of the
    two bytes is one conforming choice and [rotateTriangle] reads nothing
    but the sign. Past the end of either buffer the model stops with 0
    (never reached on vertices, which are [sizeof_Vertex] bytes long). *)
Fixpoint memcmp (p q : list byte) (n : nat) {struct n} : Z :=
  match n with
  | O => 0
  | S n' =>
      match p, q with
      | a :: p', b :: q' =>
          if byte_val a =? byte_val b then memcmp p' q' n'
          else byte_val a - byte_val b
      | _, _ => 0
      end
  end.

Definition memcmp_Vertex (a b : Vertex) : Z :=
  memcmp (Vertex_bytes a) (Vertex_bytes b) sizeof_Vertex.

(** ** [rotateTriangle]

    The source rotates [t] in place and returns whether the triangle is
    non-degenerate; here the rotated triangle is the second component. *)
Definition rotateTriangle (t : Triangle) : bool * Triangle :=
  let c01 := memcmp_Vertex (v_0 t) (v_1 t) in
  let c02 := memcmp_Vertex (v_0 t) (v_2 t) in
  let c12 := memcmp_Vertex (v_1 t) (v_2 t) in
  let t' :=
    if (c12 <? 0) && (c01 >? 0) then
      (* 1 is minimum, rotate 012 => 120 *)
      mkTriangle (v_1 t) (v_2 t) (v_0 t)
    else if (c02 >? 0) && (c12 >? 0) then
      (* 2 is minimum, rotate 012 => 201 *)
      mkTriangle (v_2 t) (v_0 t) (v_1 t)
    else t in
  (negb (c01 =? 0) && negb (c02 =? 0) && negb (c12 =? 0), t').

(** ** [hashRange] (MurmurHash2 block mixing) *)

Definition hash_m : Z := 0x5bd1e995.
Definition hash_r : Z := 24.

(** [*reinterpret_cast<const unsigned int*>(key)] on a little-endian
    target. *)
Definition load_u32 (b0 b1 b2 b3 : byte) : Z :=
  byte_val b0 + 2 ^ 8 * byte_val b1 + 2 ^ 16 * byte_val b2 + 2 ^ 24 * byte_val b3.

(** One turn of the [while (len >= 4)] loop on the word [k]. *)
Definition hashRange_mix (h k : Z) : Z :=
  let k := u32 (k * hash_m) in
  let k := Z.lxor k (Z.shiftr k hash_r) in
  let k := u32 (k * hash_m) in
  let h := u32 (h * hash_m) in
  Z.lxor h k.

(** The loop, with [key += 4; len -= 4] as recursion on [len]. Reading a
    word that [key] does not hold is an out-of-bounds read: [None]. *)
Fixpoint hashRange_loop (key : list byte) (len : nat) (h : Z) {struct len}
  : option Z :=
  match len with
  | S (S (S (S len'))) =>
      match key with
      | b0 :: b1 :: b2 :: b3 :: key' =>
          hashRange_loop key' len' (hashRange_mix h (load_u32 b0 b1 b2 b3))
      | _ => None
      end
  | _ => Some h
  end.

Definition hashRange (key : list byte) (len : nat) : option Z :=
  hashRange_loop key len 0.

(** ** [isMeshValid] *)

(** [for (i = 0; i < index_count; ++i) if (indices[i] >= vertex_count) return false;]
    as a walk over the index buffer that stops at the first offender. *)
Fixpoint isMeshValid_loop (indices : list N) (vertex_count : nat) : bool :=
  match indices with
  | [] => true
  | index :: rest =>
      if (N.of_nat vertex_count <=? index)%N then false
      else isMeshValid_loop rest vertex_count
  end.

Definition isMeshValid (mesh : Mesh) : bool :=
  let index_count := length (indices mesh) in
  let vertex_count := length (vertices mesh) in
  if negb (index_count mod 3 =? 0)%nat then false
  else isMeshValid_loop (indices mesh) vertex_count.

(** ** [hashMesh] *)

(** The three vertex reads that fill [Triangle t] for triangle [i]. *)
Definition gatherTriangle (mesh : Mesh) (i : nat) : option Triangle :=
  i0 ← indices mesh !! (i * 3 + 0)%nat;
  i1 ← indices mesh !! (i * 3 + 1)%nat;
  i2 ← indices mesh !! (i * 3 + 2)%nat;
  a ← vertices mesh !! N.to_nat i0;
  b ← vertices mesh !! N.to_nat i1;
  c ← vertices mesh !! N.to_nat i2;
  Some (mkTriangle a b c).

(** The [for] loop: [n] iterations remain, [i] is the loop counter, [h1]
    the xor accumulator and [h2] the sum accumulator. *)
Fixpoint hashMesh_loop (mesh : Mesh) (n i : nat) (h1 h2 : Z) : option (Z * Z) :=
  match n with
  | O => Some (h1, h2)
  | S n' =>
      t ← gatherTriangle mesh i;
      (* skip degenerate triangles since some algorithms don't preserve them *)
      if (rotateTriangle t).1 then
        hash ← hashRange (Triangle_data (rotateTriangle t).2) sizeof_Triangle_data;
        hashMesh_loop mesh n' (S i) (Z.lxor h1 hash) (u32 (h2 + hash))
      else hashMesh_loop mesh n' (S i) h1 h2
  end.

Definition hashMesh (mesh : Mesh) : option Z :=
  let triangle_count := (length (indices mesh) / 3)%nat in
  h ← hashMesh_loop mesh triangle_count 0 0 0;
  Some (u32 (h.1 * hash_m + h.2)).

(** ** [optRandomShuffle] *)

Inductive outcome (A : Type) : Type :=
  | Done (a : A)
  | Fault
  | OutOfFuel.
Arguments Done {A} a.
Arguments Fault {A}.
Arguments OutOfFuel {A}.

(** LCG RNG, constants from Numerical Recipes *)
Definition lcg (rng : Z) : Z := u32 (rng * 1664525 + 1013904223).

(** [t = indices[a], indices[a] = indices[b], indices[b] = t] *)
Definition swapIndices (indices : list N) (a b : Z) : option (list N) :=
  t ← indices !! Z.to_nat a;
  x ← indices !! Z.to_nat b;
  let indices := <[Z.to_nat a := x]> indices in
  Some (<[Z.to_nat b := t]> indices).

(** The body of the Fisher-Yates step: the three element swaps between
    triangle [j] and triangle [i], offsets computed in [size_t]. *)
Definition swapTriangles (indices : list N) (j i : Z) : option (list N) :=
  indices ← swapIndices indices (usize (3 * j + 0)) (usize (3 * i + 0));
  indices ← swapIndices indices (usize (3 * j + 1)) (usize (3 * i + 1));
  swapIndices indices (usize (3 * j + 2)) (usize (3 * i + 2)).

(** [for (size_t i = triangle_count - 1; i > 0; --i)]. [rng % (i + 1)]
    divides by zero when [i + 1] wraps to 0. *)
Fixpoint optRandomShuffle_loop (fuel : nat) (indices : list N) (i rng : Z)
  : outcome (list N) :=
  if i >? 0 then
    match fuel with
    | O => OutOfFuel
    | S fuel' =>
        let d := usize (i + 1) in
        if d =? 0 then Fault
        else
          let j := rng mod d in
          match swapTriangles indices j i with
          | None => Fault
          | Some indices' =>
              optRandomShuffle_loop fuel' indices' (usize (i - 1)) (lcg rng)
          end
    end
  else Done indices.

Definition optRandomShuffle (fuel : nat) (mesh : Mesh) : outcome Mesh :=
  let triangle_count := Z.of_nat (length (indices mesh) / 3) in
  match optRandomShuffle_loop fuel (indices mesh) (usize (triangle_count - 1)) 0 with
  | Done indices' => Done (mkMesh (vertices mesh) indices')
  | Fault => Fault
  | OutOfFuel => OutOfFuel
  end.

(** ** The benchmark harness [optimize]

    Meshes live in a store indexed by address: [const Mesh& mesh] is an
    address, [Mesh copy = mesh] allocates a fresh object holding a copy of
    the vectors, and [optf(copy)] rewrites the object behind its argument.
    The analysers of the library are external; they are parameters here
    and are only ever handed the copy. Timing is left out. *)
Section Harness.

Variables VertexCacheStatistics VertexFetchStatistics OverdrawStatistics : Type.

(** [meshopt_analyzeVertexCache(indices, index_count, vertex_count,
    cache_size, warp_size, primgroup_size)] *)
Variable meshopt_analyzeVertexCache :
  list N -> nat -> nat -> nat -> nat -> nat -> VertexCacheStatistics.
(** [meshopt_analyzeVertexFetch(indices, index_count, vertex_count, vertex_size)] *)
Variable meshopt_analyzeVertexFetch :
  list N -> nat -> nat -> nat -> VertexFetchStatistics.
(** [meshopt_analyzeOverdraw(indices, index_count, vertex_positions,
    vertex_count, vertex_positions_stride)] *)
Variable meshopt_analyzeOverdraw :
  list N -> nat -> list Vertex -> nat -> nat -> OverdrawStatistics.

Definition kCacheSize : nat := 16.

(** What the final [printf] reports. *)
Record report := mkReport {
  vcs : VertexCacheStatistics;
  vfs : VertexFetchStatistics;
  os : OverdrawStatistics;
  vcs_nv : VertexCacheStatistics;
  vcs_amd : VertexCacheStatistics;
  vcs_intel : VertexCacheStatistics
}.

Inductive assertion := AssertValid | AssertHash.

Inductive status :=
  | Returned (r : report)
  | Aborted (a : assertion)
  | Undefined.

Definition analyze (copy : Mesh) : report :=
  let index_count := length (indices copy) in
  let vertex_count := length (vertices copy) in
  {| vcs := meshopt_analyzeVertexCache (indices copy) index_count vertex_count kCacheSize 0 0;
     vfs := meshopt_analyzeVertexFetch (indices copy) index_count vertex_count sizeof_Vertex;
     os := meshopt_analyzeOverdraw (indices copy) index_count (vertices copy) vertex_count sizeof_Vertex;
     vcs_nv := meshopt_analyzeVertexCache (indices copy) index_count vertex_count 32 32 32;
     vcs_amd := meshopt_analyzeVertexCache (indices copy) index_count vertex_count 14 64 128;
     vcs_intel := meshopt_analyzeVertexCache (indices copy) index_count vertex_count 128 0 0 |}.

(** [optimize(mesh, name, optf)] run on the store [heap]; [optf] is the
    effect of the pass on the object it is handed, [None] when the pass
    itself goes wrong. The copy dies when the function returns; after
    [abort()] the store is left as it was at the failed assertion. *)
Definition optimize (mesh : positive) (optf : Mesh -> option Mesh)
    (heap : gmap positive Mesh) : status * gmap positive Mesh :=
  match heap !! mesh with
  | None => (Undefined, heap)
  | Some original =>
      let copy := fresh (dom heap) in
      let heap := <[copy := original]> heap in
      match optf original with
      | None => (Undefined, heap)
      | Some transformed =>
          let heap := <[copy := transformed]> heap in
          match heap !! copy, heap !! mesh with
          | Some c, Some m =>
              if negb (isMeshValid c) then (Aborted AssertValid, heap)
              else
                match hashMesh m, hashMesh c with
                | Some hm, Some hc =>
                    if negb (hm =? hc) then (Aborted AssertHash, heap)
                    else (Returned (analyze c), delete copy heap)
                | _, _ => (Undefined, heap)
                end
          | _, _ => (Undefined, heap)
          end
      end
  end.

End Harness.

(** ** Auxiliary definitions used to state the properties *)

(** The buffer read as one big-endian number: [memcmp] on buffers of equal
    size orders them as these numbers. *)
Fixpoint be_val (p : list byte) : Z :=
  match p with
  | [] => 0
  | a :: p' => byte_val a * 256 ^ Z.of_nat (length p') + be_val p'
  end.

Definition vkey (v : Vertex) : Z := be_val (Vertex_bytes v).

(** The triangle list of an index buffer: whole consecutive triples, a
    trailing partial triple is not a triangle. *)
Fixpoint triples (l : list N) : list (N * N * N) :=
  match l with
  | a :: b :: c :: l' => (a, b, c) :: triples l'
  | _ => []
  end.

(** What one index triple adds to the two accumulators of [hashMesh]:
    [None] for an out-of-range vertex read, [Some None] for a skipped
    (degenerate) triangle, [Some (Some hash)] otherwise. *)
Definition triangleHash (vs : list Vertex) (tr : N * N * N) : option (option Z) :=
  a ← vs !! N.to_nat tr.1.1;
  b ← vs !! N.to_nat tr.1.2;
  c ← vs !! N.to_nat tr.2;
  let r := rotateTriangle (mkTriangle a b c) in
  if r.1 then
    hash ← hashRange (Triangle_data r.2) sizeof_Triangle_data;
    Some (Some hash)
  else Some None.

Definition accumulate (vs : list Vertex) (acc : option (Z * Z)) (tr : N * N * N)
  : option (Z * Z) :=
  h ← acc;
  o ← triangleHash vs tr;
  match o with
  | Some hash => Some (Z.lxor h.1 hash, u32 (h.2 + hash))
  | None => Some h
  end.

Definition hashTriples (vs : list Vertex) (ts : list (N * N * N)) : option Z :=
  h ← fold_left (accumulate vs) ts (Some (0, 0));
  Some (u32 (h.1 * hash_m + h.2)).

(** The transposition of positions [a] and [b]. *)
Definition transp (a b p : nat) : nat :=
  if decide (p = b) then a else if decide (p = a) then b else p.

(** ** A concrete mesh

    The mesh [generatePlane(1)] builds: four vertices
    [{float(x), float(y), 0, 0, 0, 1, float(x) / 1, float(y) / 1}] for
    [y], [x] in 0..1 and the two triangles of the single quad. Floats are
    written as their IEEE-754 single precision bytes, lowest first. *)
Definition float_0 : float := mkFloat x00 x00 x00 x00.
Definition float_1 : float := mkFloat x00 x00 x80 x3f.

Definition plane_vertex (x y : float) : Vertex :=
  mkVertex x y float_0 float_0 float_0 float_1 x y.

Definition plane_v0 : Vertex := plane_vertex float_0 float_0.
Definition plane_v1 : Vertex := plane_vertex float_1 float_0.
Definition plane_v2 : Vertex := plane_vertex float_0 float_1.
Definition plane_v3 : Vertex := plane_vertex float_1 float_1.

Definition unit_plane : Mesh :=
  mkMesh [plane_v0; plane_v1; plane_v2; plane_v3] [0; 1; 2; 2; 1; 3]%N.

(** The same mesh with its two triangles listed in the other order. *)
Definition unit_plane_swapped : Mesh :=
  mkMesh (vertices unit_plane) [2; 1; 3; 0; 1; 2]%N.

(** [optRandomShuffle] as a pass handed to [optimize]. *)
Definition optRandomShuffle_pass (mesh : Mesh) : option Mesh :=
  match optRandomShuffle (S (length (indices mesh))) mesh with
  | Done mesh' => Some mesh'
  | _ => None
  end.

(** A store holding [unit_plane] at address 1. *)
Definition unit_plane_store : gmap positive Mesh := {[ 1%positive := unit_plane ]}.

(** ** [optNone] *)

(** [void optNone(Mesh& mesh) { (void)mesh; }] *)
Definition optNone (mesh : Mesh) : option Mesh := Some mesh.

(** ** [generatePlane]

    The vertex components are produced by floating point conversions and
    divisions; the two operations are parameters, so what is proved about
    the plane holds whatever they compute. The integer literals 0 and 1 of
    the initializer convert exactly. The index expressions are evaluated
    in [unsigned int]; reduction modulo [2^32] commutes with [+] and [*],
    so one [u32] around each expression is the wrapped value. The loops
    [for (y = 0; y <= N; ++y)] end for every [N] below [UINT_MAX]. *)
Section GeneratePlane.

Variable float_of_uint : Z -> float.
Variable float_div : float -> float -> float.

(** [{float(x), float(y), 0, 0, 0, 1, float(x) / float(N), float(y) / float(N)}] *)
Definition generatePlane_vertex (N x y : Z) : Vertex :=
  mkVertex (float_of_uint x) (float_of_uint y) float_0
           float_0 float_0 float_1
           (float_div (float_of_uint x) (float_of_uint N))
           (float_div (float_of_uint y) (float_of_uint N)).

(** The six [push_back]s of one grid cell. *)
Definition generatePlane_cell (N x y : Z) : list BinNums.N :=
  [Z.to_N (u32 ((y + 0) * (N + 1) + (x + 0)));
   Z.to_N (u32 ((y + 0) * (N + 1) + (x + 1)));
   Z.to_N (u32 ((y + 1) * (N + 1) + (x + 0)));
   Z.to_N (u32 ((y + 1) * (N + 1) + (x + 0)));
   Z.to_N (u32 ((y + 0) * (N + 1) + (x + 1)));
   Z.to_N (u32 ((y + 1) * (N + 1) + (x + 1)))].

Definition generatePlane (N : Z) : Mesh :=
  mkMesh
    (y ← seqZ 0 (N + 1); x ← seqZ 0 (N + 1); [generatePlane_vertex N x y])
    (y ← seqZ 0 N; x ← seqZ 0 N; generatePlane_cell N x y).

End GeneratePlane.

(** ** Index triples up to rotation *)

(** The three ways [encodeIndex] accepts a decoded triangle [r] for an
    input triangle [t]: equal, or rotated by one or two places. *)
Definition rotationOf (r t : N * N * N) : Prop :=
  r = t \/
  r = (t.2, t.1.1, t.1.2) \/
  r = (t.1.2, t.2, t.1.1).

(** The index buffer a triangle list stands for. *)
Definition untriples (ts : list (N * N * N)) : list N :=
  flat_map (fun t => [t.1.1; t.1.2; t.2]) ts.

(** All three indices of a triple address a vertex of [vs]. *)
Definition triangleInRange (vs : list Vertex) (t : N * N * N) : Prop :=
  (N.to_nat t.1.1 < length vs)%nat /\ (N.to_nat t.1.2 < length vs)%nat /\
  (N.to_nat t.2 < length vs)%nat.

(** The assertion loop that closes [encodeIndex]:
    [for (i = 0; i < mesh.indices.size(); i += 3) assert(...)], as a
    walk over both buffers three elements at a time. [Some false] is a
    failed assertion, [None] a read past the end of a buffer. *)
Fixpoint encodeIndex_assert (result indices : list N) : option bool :=
  match indices with
  | [] => Some true
  | _ :: indices1 =>
      match result, indices with
      | r0 :: r1 :: r2 :: result', i0 :: i1 :: i2 :: indices' =>
          if ((r0 =? i0) && (r1 =? i1) && (r2 =? i2) ||
              (r1 =? i0) && (r2 =? i1) && (r0 =? i2) ||
              (r2 =? i0) && (r0 =? i1) && (r1 =? i2))%N
          then encodeIndex_assert result' indices'
          else Some false
      | _, _ => None
      end
  end.

(** ** The distinct vertex count of [shadow]

    The loop over [shadow_indices] that fills [shadow_flags] (one [char]
    per vertex, zero-initialised) and counts [shadow_vertices] in
    [size_t]. A flag read outside the vector is [None]. *)
Fixpoint shadow_count_loop (shadow_indices : list N) (shadow_flags : list Z)
    (shadow_vertices : Z) : option Z :=
  match shadow_indices with
  | [] => Some shadow_vertices
  | index :: rest =>
      flag ← shadow_flags !! N.to_nat index;
      shadow_count_loop rest (<[N.to_nat index := 1]> shadow_flags)
        (usize (shadow_vertices + (1 - flag)))
  end.

Definition shadow_count (vertex_count : nat) (shadow_indices : list N) : option Z :=
  shadow_count_loop shadow_indices (replicate vertex_count 0) 0.

(** ** The LOD index buffer of [simplify]

    The part of [simplify] that lays the five LOD index buffers out in
    one buffer: the loop that records [lod_index_offsets] and
    [lod_index_counts] from the coarsest LOD down, and the loop of
    [memcpy]s into [indices]. The LODs themselves come from the
    library's simplifier and are a parameter. *)
Definition lod_count : nat := 5.

(** [for (int i = lod_count - 1; i >= 0; --i)], [n] turns left, the next
    one for [i = n - 1]. *)
Fixpoint simplify_offsets_loop (n : nat) (lods : list (list N))
    (lod_index_offsets lod_index_counts : list nat) (total_index_count : nat)
  : option (list nat * list nat * nat) :=
  match n with
  | O => Some (lod_index_offsets, lod_index_counts, total_index_count)
  | S i =>
      lod ← lods !! i;
      simplify_offsets_loop i lods
        (<[i := total_index_count]> lod_index_offsets)
        (<[i := length lod]> lod_index_counts)
        (total_index_count + length lod)
  end.

(** [memcpy(&dst[offset], &src[0], src.size() * sizeof(src[0]))]; a copy
    that does not fit [dst] is [None]. *)
Definition memcpy_at (dst : list N) (offset : nat) (src : list N) : option (list N) :=
  if (offset + length src <=? length dst)%nat
  then Some (take offset dst ++ src ++ drop (offset + length src) dst)
  else None.

(** [for (size_t i = 0; i < lod_count; ++i) memcpy(...)], [n] turns left. *)
Fixpoint simplify_copy_loop (n i : nat) (lods : list (list N))
    (lod_index_offsets : list nat) (indices : list N) : option (list N) :=
  match n with
  | O => Some indices
  | S n' =>
      lod ← lods !! i;
      offset ← lod_index_offsets !! i;
      indices' ← memcpy_at indices offset lod;
      simplify_copy_loop n' (S i) lods lod_index_offsets indices'
  end.

Definition simplify_concatenate (lods : list (list N))
  : option (list nat * list nat * list N) :=
  r ← simplify_offsets_loop lod_count lods
        (replicate lod_count 0%nat) (replicate lod_count 0%nat) 0%nat;
  indices ← simplify_copy_loop lod_count 0 lods r.1.1 (replicate r.2 0%N);
  Some (r.1.1, r.1.2, indices).

(** ** The codec coverage tests

    [encodeIndexCoverage] and [encodeVertexCoverage] drive the library's
    codecs, which are parameters here. An encoder is given the capacity of
    the buffer it may write and returns its result together with the
    buffer as it leaves it; a decoder is given the bytes it may read and
    returns its [int] result (the destination it fills is never looked
    at). The outcome is [Passed] when every [assert] holds,
    [AssertionFailed] when one does not, and [OutOfBounds] for the write
    [brokenbuffer[0] = 0] into an empty vector. *)
Inductive coverage : Type :=
  | Passed
  | AssertionFailed
  | OutOfBounds.

(** [struct PackedVertexOct]: three [unsigned short], two [unsigned char],
    two [unsigned short]. *)
Record PackedVertexOct := mkPackedVertexOct {
  pvo_px : Z; pvo_py : Z; pvo_pz : Z;
  pvo_nu : Z; pvo_nv : Z;
  pvo_tx : Z; pvo_ty : Z
}.

Definition sizeof_PackedVertexOct : nat := 12.

(** The first loop of both tests: encode into every capacity [i] from 0
    to [buffer.size()]; the result must be [buffer.size()] at full
    capacity and 0 below. *)
Definition coverage_encode_loop (encode : nat -> nat) (size : nat) : bool :=
  forallb (fun i => let result := encode i in
                    if (i =? size)%nat then (result =? size)%nat
                    else (result =? 0)%nat)
          (seq 0 (S size)).

(** The second loop: decode every prefix of the buffer; the result must be
    0 for the whole buffer and negative for a proper prefix. *)
Definition coverage_decode_loop (decode : list byte -> Z) (buffer : list byte) : bool :=
  forallb (fun i => let result := decode (take i buffer) in
                    if (i =? length buffer)%nat then result =? 0
                    else result <? 0)
          (seq 0 (S (length buffer))).

(** What follows the first encode in both tests. *)
Definition coverage_checks (encode : nat -> nat) (decode : list byte -> Z)
    (buffer : list byte) : coverage :=
  if negb (coverage_encode_loop encode (length buffer)) then AssertionFailed
  else if negb (coverage_decode_loop decode buffer) then AssertionFailed
  else
    (* check that decoder doesn't accept extra bytes after a valid stream *)
    if negb (decode (buffer ++ [x00]) <? 0) then AssertionFailed
    else
      (* check that decoder doesn't accept malformed headers *)
      match buffer with
      | [] => OutOfBounds
      | _ :: _ =>
          if negb (decode (<[0%nat := x00]> buffer) <? 0) then AssertionFailed
          else Passed
      end.

Section Coverage.

Variable meshopt_encodeIndexBufferBound : nat -> nat -> nat.
Variable meshopt_encodeIndexBuffer : nat -> list N -> nat * list byte.
Variable meshopt_decodeIndexBuffer : nat -> list byte -> Z.

Variable meshopt_encodeVertexBufferBound : nat -> nat -> nat.
Variable meshopt_encodeVertexBuffer :
  nat -> list PackedVertexOct -> nat -> nat -> nat * list byte.
Variable meshopt_decodeVertexBuffer : nat -> nat -> list byte -> Z.

Definition encodeIndexCoverage_indices : list N :=
  [0; 1; 2; 2; 1; 3; 4; 6; 5; 7; 8; 9]%N.

(** [buffer] after [buffer.resize(meshopt_encodeIndexBuffer(...))]. *)
Definition encodeIndexCoverage_buffer : list byte :=
  let index_count := length encodeIndexCoverage_indices in
  let vertex_count := 10%nat in
  let r := meshopt_encodeIndexBuffer
             (meshopt_encodeIndexBufferBound index_count vertex_count)
             encodeIndexCoverage_indices in
  resize r.1 x00 r.2.

Definition encodeIndexCoverage : coverage :=
  let index_count := length encodeIndexCoverage_indices in
  coverage_checks
    (fun i => (meshopt_encodeIndexBuffer i encodeIndexCoverage_indices).1)
    (meshopt_decodeIndexBuffer index_count)
    encodeIndexCoverage_buffer.

Definition encodeVertexCoverage_vertices : list PackedVertexOct :=
  [mkPackedVertexOct 0 0 0 0 0 0 0;
   mkPackedVertexOct 300 0 0 0 0 500 0;
   mkPackedVertexOct 0 300 0 0 0 0 500;
   mkPackedVertexOct 300 300 0 0 0 500 500].

Definition encodeVertexCoverage_buffer : list byte :=
  let vertex_count := 4%nat in
  let r := meshopt_encodeVertexBuffer
             (meshopt_encodeVertexBufferBound vertex_count sizeof_PackedVertexOct)
             encodeVertexCoverage_vertices vertex_count sizeof_PackedVertexOct in
  resize r.1 x00 r.2.

Definition encodeVertexCoverage : coverage :=
  let vertex_count := 4%nat in
  coverage_checks
    (fun i => (meshopt_encodeVertexBuffer i encodeVertexCoverage_vertices
                 vertex_count sizeof_PackedVertexOct).1)
    (meshopt_decodeVertexBuffer vertex_count sizeof_PackedVertexOct)
    encodeVertexCoverage_buffer.

End Coverage.

(** A three-byte codec that honours the contract of the coverage tests,
    to run them on: the encoder writes the same three bytes whenever they
    fit and nothing otherwise, the decoder accepts exactly these bytes. *)
Definition fixed_stream : list byte := [xe0; x01; x02].

Definition fixed_encode (buffer_size : nat) : nat * list byte :=
  if (length fixed_stream <=? buffer_size)%nat
  then (length fixed_stream,
        fixed_stream ++ replicate (buffer_size - length fixed_stream) x00)
  else (0%nat, replicate buffer_size x00).

Definition fixed_decode (buffer : list byte) : Z :=
  if decide (map byte_val buffer = map byte_val fixed_stream) then 0 else -1.

(** * Properties *)

(** ** Bytes and [memcmp] as a total order *)

Lemma byte_val_range (b : byte) : 0 <= byte_val b < 256.
Proof.
  unfold byte_val. pose proof (Byte.to_N_bounded b) as H.
  lia.
Qed.

Lemma byte_val_inj (a b : byte) : byte_val a = byte_val b -> a = b.
Proof.
  unfold byte_val. intros H. apply N2Z.inj in H.
  pose proof (Byte.of_to_N a) as Ha. pose proof (Byte.of_to_N b) as Hb.
  rewrite H in Ha. congruence.
Qed.

Lemma be_val_range (p : list byte) : 0 <= be_val p < 256 ^ Z.of_nat (length p).
Proof.
  induction p as [|a p IH]; simpl be_val; simpl length.
  - simpl. lia.
  - rewrite Nat2Z.inj_succ, Z.pow_succ_r by lia.
    pose proof (byte_val_range a). nia.
Qed.

Lemma be_val_inj (p q : list byte) :
  length p = length q -> be_val p = be_val q -> p = q.
Proof.
  revert q. induction p as [|a p IH]; intros [|b q] Hlen Hv; try discriminate; auto.
  simpl in Hlen. injection Hlen as Hlen. simpl in Hv. rewrite Hlen in Hv.
  pose proof (be_val_range p) as Hp. pose proof (be_val_range q) as Hq.
  rewrite Hlen in Hp.
  pose proof (byte_val_range a). pose proof (byte_val_range b).
  assert (byte_val a = byte_val b) as Hab by nia.
  rewrite Hab in Hv. apply byte_val_inj in Hab. subst b.
  f_equal. apply IH; [assumption | lia].
Qed.

Lemma memcmp_be_val (n : nat) (p q : list byte) :
  length p = n -> length q = n ->
  (memcmp p q n < 0 <-> be_val p < be_val q) /\
  (memcmp p q n = 0 <-> be_val p = be_val q).
Proof.
  revert p q. induction n as [|n IH]; intros p q Hp Hq.
  - destruct p, q; try discriminate. simpl. lia.
  - destruct p as [|a p], q as [|b q]; try discriminate.
    simpl in Hp, Hq. injection Hp as Hp. injection Hq as Hq.
    simpl memcmp. simpl be_val. rewrite Hp, Hq.
    pose proof (be_val_range p) as Rp. pose proof (be_val_range q) as Rq.
    rewrite Hp in Rp. rewrite Hq in Rq.
    pose proof (byte_val_range a). pose proof (byte_val_range b).
    destruct (Z.eqb_spec (byte_val a) (byte_val b)) as [E|E].
    + rewrite E. specialize (IH p q Hp Hq). lia.
    + nia.
Qed.

Lemma Vertex_bytes_length (v : Vertex) : length (Vertex_bytes v) = sizeof_Vertex.
Proof. reflexivity. Qed.

Lemma Vertex_bytes_inj (a b : Vertex) : Vertex_bytes a = Vertex_bytes b -> a = b.
Proof.
  destruct a as [[] [] [] [] [] [] [] []], b as [[] [] [] [] [] [] [] []].
  unfold Vertex_bytes, float_bytes. simpl. intros H.
  injection H; intros; subst; reflexivity.
Qed.

Lemma memcmp_Vertex_lt (a b : Vertex) : memcmp_Vertex a b < 0 <-> vkey a < vkey b.
Proof. apply memcmp_be_val; apply Vertex_bytes_length. Qed.

Lemma memcmp_Vertex_eq (a b : Vertex) : memcmp_Vertex a b = 0 <-> vkey a = vkey b.
Proof. apply memcmp_be_val; apply Vertex_bytes_length. Qed.

Lemma vkey_inj (a b : Vertex) : vkey a = vkey b -> Vertex_bytes a = Vertex_bytes b.
Proof. intros H. apply be_val_inj; [reflexivity | exact H]. Qed.

(** ** [rotateTriangle] *)

(** Turns the three [memcmp] results into facts about the keys. *)
Ltac memcmp_keys a b c :=
  pose proof (memcmp_Vertex_lt a b); pose proof (memcmp_Vertex_eq a b);
  pose proof (memcmp_Vertex_lt a c); pose proof (memcmp_Vertex_eq a c);
  pose proof (memcmp_Vertex_lt b c); pose proof (memcmp_Vertex_eq b c);
  pose proof (memcmp_Vertex_lt b a); pose proof (memcmp_Vertex_eq b a);
  pose proof (memcmp_Vertex_lt c a); pose proof (memcmp_Vertex_eq c a);
  pose proof (memcmp_Vertex_lt c b); pose proof (memcmp_Vertex_eq c b).

Ltac split_tests :=
  repeat match goal with
  | |- context [?x <? ?y] => destruct (Z.ltb_spec x y)
  | |- context [?x >? ?y] => rewrite (Z.gtb_ltb x y)
  | |- context [?x =? ?y] => destruct (Z.eqb_spec x y)
  end.

Lemma vkey_neq (a b : Vertex) : Vertex_bytes a <> Vertex_bytes b -> vkey a <> vkey b.
Proof. intros H E. apply H, vkey_inj, E. Qed.

(** The rotated triangle is always one of the three cyclic rotations. *)
Lemma rotateTriangle_cases (a b c : Vertex) :
  let t := (rotateTriangle (mkTriangle a b c)).2 in
  t = mkTriangle a b c \/ t = mkTriangle b c a \/ t = mkTriangle c a b.
Proof.
  unfold rotateTriangle; simpl.
  destruct (_ && _); [auto|]. destruct (_ && _); auto.
Qed.

Lemma rotateTriangle_flag (a b c : Vertex) :
  (rotateTriangle (mkTriangle a b c)).1 = false <->
  Vertex_bytes a = Vertex_bytes b \/ Vertex_bytes a = Vertex_bytes c \/
  Vertex_bytes b = Vertex_bytes c.
Proof.
  unfold rotateTriangle; simpl. memcmp_keys a b c.
  split.
  - intros Hf.
    destruct (Z.eqb_spec (memcmp_Vertex a b) 0); [left; apply vkey_inj; tauto|].
    destruct (Z.eqb_spec (memcmp_Vertex a c) 0); [right; left; apply vkey_inj; tauto|].
    destruct (Z.eqb_spec (memcmp_Vertex b c) 0); [right; right; apply vkey_inj; tauto|].
    discriminate.
  - intros [E|[E|E]].
    + assert (memcmp_Vertex a b = 0) as -> by (unfold vkey in *; rewrite E in *; tauto).
      reflexivity.
    + assert (memcmp_Vertex a c = 0) as -> by (unfold vkey in *; rewrite E in *; tauto).
      destruct (_ =? 0); reflexivity.
    + assert (memcmp_Vertex b c = 0) as -> by (unfold vkey in *; rewrite E in *; tauto).
      do 2 destruct (_ =? 0); reflexivity.
Qed.

(** On pairwise distinct keys the result starts at the least key and keeps
    the cyclic order. *)
Lemma rotateTriangle_canonical (a b c : Vertex) :
  vkey a <> vkey b -> vkey a <> vkey c -> vkey b <> vkey c ->
  rotateTriangle (mkTriangle a b c) =
    (true,
     if (vkey a <? vkey b) && (vkey a <? vkey c) then mkTriangle a b c
     else if (vkey b <? vkey c) then mkTriangle b c a
     else mkTriangle c a b).
Proof.
  intros Hab Hac Hbc. unfold rotateTriangle; simpl. memcmp_keys a b c.
  split_tests; simpl; try reflexivity; exfalso; lia.
Qed.

(** C1. Rotation invariance of the canonical form: for a triangle whose
    three vertices are pairwise byte-distinct, [rotateTriangle] gives the
    same result on each of its three cyclic rotations; that result is
    flagged non-degenerate, is itself one of the three cyclic rotations of
    the input (never a reflection), and starts at the vertex that [memcmp]
    orders before the other two. *)
Theorem rotateTriangle_rotation_invariant (a b c : Vertex) :
  Vertex_bytes a <> Vertex_bytes b ->
  Vertex_bytes a <> Vertex_bytes c ->
  Vertex_bytes b <> Vertex_bytes c ->
  rotateTriangle (mkTriangle b c a) = rotateTriangle (mkTriangle a b c) /\
  rotateTriangle (mkTriangle c a b) = rotateTriangle (mkTriangle a b c) /\
  (rotateTriangle (mkTriangle a b c)).1 = true /\
  ((rotateTriangle (mkTriangle a b c)).2 = mkTriangle a b c \/
   (rotateTriangle (mkTriangle a b c)).2 = mkTriangle b c a \/
   (rotateTriangle (mkTriangle a b c)).2 = mkTriangle c a b) /\
  memcmp_Vertex (v_0 (rotateTriangle (mkTriangle a b c)).2)
                (v_1 (rotateTriangle (mkTriangle a b c)).2) < 0 /\
  memcmp_Vertex (v_0 (rotateTriangle (mkTriangle a b c)).2)
                (v_2 (rotateTriangle (mkTriangle a b c)).2) < 0.
Proof.
  intros Hab Hac Hbc. apply vkey_neq in Hab, Hac, Hbc.
  rewrite (rotateTriangle_canonical a b c), (rotateTriangle_canonical b c a),
    (rotateTriangle_canonical c a b) by auto.
  memcmp_keys a b c.
  split_tests; simpl; repeat split; auto; try lia; exfalso; lia.
Qed.

Lemma rotateTriangle_rotation_invariant_witness :
  (Vertex_bytes plane_v0 <> Vertex_bytes plane_v1 /\
   Vertex_bytes plane_v0 <> Vertex_bytes plane_v2 /\
   Vertex_bytes plane_v1 <> Vertex_bytes plane_v2) /\
  rotateTriangle (mkTriangle plane_v1 plane_v2 plane_v0) =
    rotateTriangle (mkTriangle plane_v0 plane_v1 plane_v2) /\
  rotateTriangle (mkTriangle plane_v2 plane_v0 plane_v1) =
    rotateTriangle (mkTriangle plane_v0 plane_v1 plane_v2) /\
  (rotateTriangle (mkTriangle plane_v0 plane_v1 plane_v2)).1 = true.
Proof.
  assert (Vertex_bytes plane_v0 <> Vertex_bytes plane_v1) as H01 by discriminate.
  assert (Vertex_bytes plane_v0 <> Vertex_bytes plane_v2) as H02 by discriminate.
  assert (Vertex_bytes plane_v1 <> Vertex_bytes plane_v2) as H12 by discriminate.
  destruct (rotateTriangle_rotation_invariant plane_v0 plane_v1 plane_v2 H01 H02 H12)
    as (R1 & R2 & R3 & _).
  repeat split; assumption.
Defined.

(** C7. Winding sensitivity of the canonical form: for a triangle whose
    three vertices are pairwise byte-distinct, the canonical triangle of
    the reversed vertex order (and of the two other reflections, which are
    its rotations) differs from the canonical triangle of the original. *)
Theorem rotateTriangle_reflection_differs (a b c : Vertex) :
  Vertex_bytes a <> Vertex_bytes b ->
  Vertex_bytes a <> Vertex_bytes c ->
  Vertex_bytes b <> Vertex_bytes c ->
  (rotateTriangle (mkTriangle c b a)).2 <> (rotateTriangle (mkTriangle a b c)).2 /\
  (rotateTriangle (mkTriangle a c b)).2 <> (rotateTriangle (mkTriangle a b c)).2 /\
  (rotateTriangle (mkTriangle b a c)).2 <> (rotateTriangle (mkTriangle a b c)).2.
Proof.
  intros Hab Hac Hbc. apply vkey_neq in Hab, Hac, Hbc.
  rewrite (rotateTriangle_canonical a b c), (rotateTriangle_canonical c b a),
    (rotateTriangle_canonical a c b), (rotateTriangle_canonical b a c) by auto.
  split_tests; simpl; repeat split; try (exfalso; lia); congruence.
Qed.

Lemma rotateTriangle_reflection_differs_witness :
  (Vertex_bytes plane_v0 <> Vertex_bytes plane_v1 /\
   Vertex_bytes plane_v0 <> Vertex_bytes plane_v2 /\
   Vertex_bytes plane_v1 <> Vertex_bytes plane_v2) /\
  (rotateTriangle (mkTriangle plane_v2 plane_v1 plane_v0)).2 <>
  (rotateTriangle (mkTriangle plane_v0 plane_v1 plane_v2)).2.
Proof.
  assert (Vertex_bytes plane_v0 <> Vertex_bytes plane_v1) as H01 by discriminate.
  assert (Vertex_bytes plane_v0 <> Vertex_bytes plane_v2) as H02 by discriminate.
  assert (Vertex_bytes plane_v1 <> Vertex_bytes plane_v2) as H12 by discriminate.
  destruct (rotateTriangle_reflection_differs plane_v0 plane_v1 plane_v2 H01 H02 H12)
    as (R1 & _).
  repeat split; assumption.
Defined.

(** ** [hashRange] *)

Lemma div4_step (n : nat) : (4 * (S (S (S (S n))) / 4) = S (S (S (S (4 * (n / 4))))))%nat.
Proof.
  replace (S (S (S (S n)))) with (1 * 4 + n)%nat by lia.
  rewrite Nat.div_add_l by lia. lia.
Qed.

Lemma hashRange_loop_chunks (len : nat) :
  forall key h, hashRange_loop key len h = hashRange_loop key (4 * (len / 4)) h.
Proof.
  induction len as [len IH] using lt_wf_ind. intros key h.
  destruct len as [|[|[|[|n]]]]; try reflexivity.
  rewrite div4_step.
  cbn [hashRange_loop]. destruct key as [|b0 [|b1 [|b2 [|b3 key]]]]; try reflexivity.
  apply IH. lia.
Qed.

Lemma hashRange_loop_defined (len : nat) :
  forall key h, (len <= length key)%nat -> is_Some (hashRange_loop key len h).
Proof.
  induction len as [len IH] using lt_wf_ind. intros key h Hlen.
  destruct len as [|[|[|[|n]]]]; try (eexists; reflexivity).
  destruct key as [|b0 [|b1 [|b2 [|b3 key]]]]; simpl in Hlen; try lia.
  cbn [hashRange_loop]. apply IH; lia.
Qed.

(** C9. [hashRange] consumes whole 4-byte words only: the result for
    [len] is the result for [4 * (len / 4)], whatever the trailing
    [len mod 4] bytes are; it is defined whenever [key] holds [len] bytes,
    and it is 0 for every [len] below 4. *)
Theorem hashRange_ignores_tail (key : list byte) (len : nat) :
  hashRange key len = hashRange key (4 * (len / 4)) /\
  ((len <= length key)%nat -> is_Some (hashRange key len)) /\
  ((len < 4)%nat -> hashRange key len = Some 0).
Proof.
  unfold hashRange. split; [apply hashRange_loop_chunks|]. split.
  - apply hashRange_loop_defined.
  - intros Hlen. destruct len as [|[|[|[|n]]]]; try reflexivity. lia.
Qed.

Lemma hashRange_ignores_tail_witness :
  hashRange [x01; x02; x03] 3 = hashRange [x01; x02; x03] (4 * (3 / 4)) /\
  is_Some (hashRange [x01; x02; x03] 3) /\
  hashRange [x01; x02; x03] 3 = Some 0.
Proof.
  destruct (hashRange_ignores_tail [x01; x02; x03] 3) as (H1 & H2 & H3).
  split; [exact H1|]. split; [apply H2; simpl; lia | apply H3; lia].
Defined.

(** ** Index buffers as triangle lists *)

Lemma list_ind3 {A : Type} (P : list A -> Prop) :
  P [] -> (forall a, P [a]) -> (forall a b, P [a; b]) ->
  (forall a b c l, P l -> P (a :: b :: c :: l)) ->
  forall l, P l.
Proof.
  intros H0 H1 H2 H3 l.
  assert (P l /\ (forall a, P (a :: l)) /\ (forall a b, P (a :: b :: l))) as [H _].
  { induction l as [|x l (IH0 & IH1 & IH2)]; auto. }
  exact H.
Qed.

Lemma triples_lookup (l : list N) :
  forall k : nat,
    triples l !! k =
      (a ← l !! (k * 3 + 0)%nat; b ← l !! (k * 3 + 1)%nat;
       c ← l !! (k * 3 + 2)%nat; Some (a, b, c)).
Proof.
  induction l as [|a|a b|a b c l IH] using list_ind3; intros k.
  - reflexivity.
  - rewrite (lookup_ge_None_2 [a] (k * 3 + 1)) by (simpl; lia).
    destruct ([a] !! (k * 3 + 0)%nat); reflexivity.
  - rewrite (lookup_ge_None_2 [a; b] (k * 3 + 2)) by (simpl; lia).
    destruct ([a; b] !! (k * 3 + 0)%nat), ([a; b] !! (k * 3 + 1)%nat); reflexivity.
  - destruct k as [|k]; [reflexivity|]. simpl. apply IH.
Qed.

Lemma triples_length (l : list N) : length (triples l) = (length l / 3)%nat.
Proof.
  induction l as [|a|a b|a b c l IH] using list_ind3; try reflexivity.
  simpl length. rewrite IH.
  replace (S (S (S (length l)))) with (1 * 3 + length l)%nat by lia.
  rewrite Nat.div_add_l by lia. lia.
Qed.

Lemma triples_app (pre l : list N) :
  (length pre mod 3 = 0)%nat -> triples (pre ++ l) = triples pre ++ triples l.
Proof.
  induction pre as [|a|a b|a b c pre IH] using list_ind3; simpl length; intros H.
  - reflexivity.
  - discriminate.
  - discriminate.
  - simpl. f_equal. apply IH.
    replace (S (S (S (length pre)))) with (length pre + 1 * 3)%nat in H by lia.
    rewrite Nat.Div0.mod_add in H. exact H.
Qed.

(** ** [hashMesh] as a fold over the triangle list *)

#[local] Arguments rotateTriangle : simpl never.
#[local] Arguments hashRange : simpl never.

Lemma fold_accumulate_None (vs : list Vertex) (ts : list (N * N * N)) :
  fold_left (accumulate vs) ts None = None.
Proof. induction ts as [|t ts IH]; [reflexivity | exact IH]. Qed.

Lemma hashMesh_step (mesh : Mesh) (i : nat) (t : N * N * N) (h1 h2 : Z) (n : nat) :
  triples (indices mesh) !! i = Some t ->
  hashMesh_loop mesh (S n) i h1 h2 =
    match accumulate (vertices mesh) (Some (h1, h2)) t with
    | Some h => hashMesh_loop mesh n (S i) h.1 h.2
    | None => None
    end.
Proof.
  intros Ht. rewrite triples_lookup in Ht.
  cbn [hashMesh_loop]. unfold gatherTriangle, accumulate, triangleHash.
  destruct (indices mesh !! (i * 3 + 0)%nat) as [i0|]; [|discriminate].
  destruct (indices mesh !! (i * 3 + 1)%nat) as [i1|]; [|discriminate].
  destruct (indices mesh !! (i * 3 + 2)%nat) as [i2|]; [|discriminate].
  cbn [mbind option_bind] in Ht. injection Ht as <-.
  cbn [mbind option_bind fst snd].
  destruct (vertices mesh !! N.to_nat i0) as [a|]; [|reflexivity].
  destruct (vertices mesh !! N.to_nat i1) as [b|]; [|reflexivity].
  destruct (vertices mesh !! N.to_nat i2) as [c|]; [|reflexivity].
  cbn [mbind option_bind].
  destruct (rotateTriangle (mkTriangle a b c)) as [nondegenerate t'].
  cbn [fst snd]. destruct nondegenerate; [|reflexivity].
  destruct (hashRange (Triangle_data t') sizeof_Triangle_data); reflexivity.
Qed.

Lemma hashMesh_loop_fold (mesh : Mesh) (n : nat) :
  forall i h1 h2,
    (i + n)%nat = length (triples (indices mesh)) ->
    hashMesh_loop mesh n i h1 h2 =
      fold_left (accumulate (vertices mesh)) (drop i (triples (indices mesh)))
        (Some (h1, h2)).
Proof.
  induction n as [|n IH]; intros i h1 h2 Hn.
  - rewrite drop_ge by lia. reflexivity.
  - destruct (lookup_lt_is_Some_2 (triples (indices mesh)) i) as [t Ht]; [lia|].
    rewrite (hashMesh_step _ _ t) by exact Ht.
    rewrite (drop_S _ _ _ Ht). cbn [fold_left].
    destruct (accumulate _ _ t) as [[h1' h2']|].
    + apply IH. lia.
    + symmetry. apply fold_accumulate_None.
Qed.

Lemma hashMesh_triples (mesh : Mesh) :
  hashMesh mesh = hashTriples (vertices mesh) (triples (indices mesh)).
Proof.
  unfold hashMesh, hashTriples.
  rewrite (hashMesh_loop_fold mesh) by (rewrite triples_length; lia).
  reflexivity.
Qed.

(** ** Order independence of the accumulators *)

Lemma u32_add_swap (h x y : Z) : u32 (u32 (h + x) + y) = u32 (u32 (h + y) + x).
Proof.
  unfold u32. rewrite !Zplus_mod_idemp_l. f_equal. lia.
Qed.

Lemma accumulate_comm (vs : list Vertex) (acc : option (Z * Z)) (s t : N * N * N) :
  accumulate vs (accumulate vs acc s) t = accumulate vs (accumulate vs acc t) s.
Proof.
  unfold accumulate. destruct acc as [[h1 h2]|]; [|reflexivity].
  cbn [mbind option_bind].
  destruct (triangleHash vs s) as [[x|]|], (triangleHash vs t) as [[y|]|];
    cbn [mbind option_bind fst snd]; try reflexivity.
  - f_equal. f_equal.
    + rewrite !Z.lxor_assoc. f_equal. apply Z.lxor_comm.
    + apply u32_add_swap.
Qed.

Lemma fold_left_Permutation {A B : Type} (f : A -> B -> A) :
  (forall a x y, f (f a x) y = f (f a y) x) ->
  forall l l', Permutation l l' -> forall a, fold_left f l a = fold_left f l' a.
Proof.
  intros Hf l l' HP. induction HP; intros a0; simpl.
  - reflexivity.
  - apply IHHP.
  - rewrite Hf. reflexivity.
  - rewrite IHHP1. apply IHHP2.
Qed.

Lemma hashTriples_Permutation (vs : list Vertex) (ts ts' : list (N * N * N)) :
  Permutation ts ts' -> hashTriples vs ts = hashTriples vs ts'.
Proof.
  intros HP. unfold hashTriples.
  rewrite (fold_left_Permutation _ (accumulate_comm vs) _ _ HP). reflexivity.
Qed.

(** ** [isMeshValid] *)

Lemma isMeshValid_loop_false (l : list N) (vertex_count : nat) :
  isMeshValid_loop l vertex_count = false <->
  exists index, In index l /\ (N.of_nat vertex_count <= index)%N.
Proof.
  induction l as [|x l IH]; simpl.
  - split; [discriminate | intros (? & [] & _)].
  - destruct (N.leb_spec (N.of_nat vertex_count) x) as [Hle|Hlt].
    + split; [intros _; exists x; auto | reflexivity].
    + rewrite IH. split.
      * intros (i & Hi & Hle). exists i. auto.
      * intros (i & [<-|Hi] & Hle); [lia | exists i; auto].
Qed.

Lemma isMeshValid_true (mesh : Mesh) :
  isMeshValid mesh = true ->
  (length (indices mesh) mod 3 = 0)%nat /\
  Forall (fun index => (N.to_nat index < length (vertices mesh))%nat) (indices mesh).
Proof.
  unfold isMeshValid. intros H.
  destruct (Nat.eqb_spec (length (indices mesh) mod 3) 0) as [E|E]; [|discriminate].
  split; [exact E|]. simpl in H.
  apply Forall_forall. intros index Hin.
  destruct (N.leb_spec (N.of_nat (length (vertices mesh))) index) as [Hle|Hlt]; [|lia].
  apply list_elem_of_In in Hin.
  assert (isMeshValid_loop (indices mesh) (length (vertices mesh)) = false) as Hf
    by (apply isMeshValid_loop_false; exists index; auto).
  congruence.
Qed.

(** C5. [isMeshValid] rejects a mesh exactly when the index count is not
    a multiple of 3 or some index is not below the vertex count; nothing
    else about the mesh (degenerate or repeated triangles, vertex
    content) enters the result. *)
Theorem isMeshValid_false_iff (mesh : Mesh) :
  isMeshValid mesh = false <->
  (length (indices mesh) mod 3 <> 0)%nat \/
  exists index, In index (indices mesh) /\
                (N.of_nat (length (vertices mesh)) <= index)%N.
Proof.
  unfold isMeshValid.
  destruct (Nat.eqb_spec (length (indices mesh) mod 3) 0) as [E|E]; simpl.
  - rewrite isMeshValid_loop_false. split; [auto | intros [H|H]; [contradiction | exact H]].
  - split; [auto | reflexivity].
Qed.

(** ** [hashMesh] is defined on valid meshes *)

Lemma triples_Forall (P : N -> Prop) (l : list N) :
  Forall P l -> Forall (fun t => P t.1.1 /\ P t.1.2 /\ P t.2) (triples l).
Proof.
  induction l as [|a|a b|a b c l IH] using list_ind3; intros H;
    try (apply Forall_nil_2).
  simpl. inversion H as [|? ? Ha H1]; subst. inversion H1 as [|? ? Hb H2]; subst.
  inversion H2 as [|? ? Hc H3]; subst.
  apply Forall_cons_2; auto.
Qed.

Lemma Triangle_data_length (t : Triangle) : length (Triangle_data t) = sizeof_Triangle_data.
Proof. reflexivity. Qed.

Lemma triangleHash_defined (vs : list Vertex) (t : N * N * N) :
  (N.to_nat t.1.1 < length vs)%nat -> (N.to_nat t.1.2 < length vs)%nat ->
  (N.to_nat t.2 < length vs)%nat ->
  is_Some (triangleHash vs t).
Proof.
  intros Ha Hb Hc. unfold triangleHash.
  destruct (lookup_lt_is_Some_2 vs _ Ha) as [a ->].
  destruct (lookup_lt_is_Some_2 vs _ Hb) as [b ->].
  destruct (lookup_lt_is_Some_2 vs _ Hc) as [c ->].
  cbn [mbind option_bind].
  destruct (rotateTriangle (mkTriangle a b c)) as [nondegenerate t'].
  cbn [fst snd]. destruct nondegenerate; [|eexists; reflexivity].
  destruct (hashRange_loop_defined sizeof_Triangle_data (Triangle_data t') 0) as [h Hh].
  - rewrite Triangle_data_length. lia.
  - unfold hashRange. rewrite Hh. eexists; reflexivity.
Qed.

Lemma fold_accumulate_defined (vs : list Vertex) (ts : list (N * N * N)) :
  Forall (fun t => is_Some (triangleHash vs t)) ts ->
  forall h, is_Some (fold_left (accumulate vs) ts (Some h)).
Proof.
  induction 1 as [|t ts [o Ho] _ IH]; intros h; [eexists; reflexivity|].
  cbn [fold_left]. unfold accumulate at 2. rewrite Ho. cbn [mbind option_bind].
  destruct o; apply IH.
Qed.

Lemma hashMesh_defined (mesh : Mesh) :
  isMeshValid mesh = true -> is_Some (hashMesh mesh).
Proof.
  intros Hv. apply isMeshValid_true in Hv as [_ Hr].
  rewrite hashMesh_triples. unfold hashTriples.
  destruct (fold_accumulate_defined (vertices mesh) (triples (indices mesh))) with (h := (0, 0))
    as [h Hh].
  - apply triples_Forall in Hr. eapply Forall_impl; [exact Hr|].
    intros t (Ha & Hb & Hc). apply triangleHash_defined; assumption.
  - rewrite Hh. eexists; reflexivity.
Qed.

(** C2. Order independence of the fingerprint: two meshes over the same
    vertex buffer whose index buffers hold the same triangles (whole
    consecutive triples) in any order have the same [hashMesh]. The value
    is the fold of the xor and sum accumulators over the triangle list,
    combined once at the end, and it is defined on every valid mesh. *)
Theorem hashMesh_triangle_order (mesh mesh' : Mesh) :
  vertices mesh' = vertices mesh ->
  Permutation (triples (indices mesh)) (triples (indices mesh')) ->
  hashMesh mesh' = hashMesh mesh /\
  hashMesh mesh = hashTriples (vertices mesh) (triples (indices mesh)) /\
  (isMeshValid mesh = true -> is_Some (hashMesh mesh)).
Proof.
  intros Hvs HP. split; [|split].
  - rewrite !hashMesh_triples, Hvs. symmetry. apply hashTriples_Permutation, HP.
  - apply hashMesh_triples.
  - apply hashMesh_defined.
Qed.

Lemma hashMesh_triangle_order_witness :
  (vertices unit_plane_swapped = vertices unit_plane /\
   Permutation (triples (indices unit_plane)) (triples (indices unit_plane_swapped)) /\
   isMeshValid unit_plane = true) /\
  hashMesh unit_plane_swapped = hashMesh unit_plane /\
  hashMesh unit_plane =
    hashTriples (vertices unit_plane) (triples (indices unit_plane)) /\
  is_Some (hashMesh unit_plane).
Proof.
  assert (Permutation (triples (indices unit_plane))
            (triples (indices unit_plane_swapped))) as HP
    by (simpl; apply perm_swap).
  destruct (hashMesh_triangle_order unit_plane unit_plane_swapped eq_refl HP)
    as (H1 & H2 & H3).
  repeat split; try assumption; try reflexivity. apply H3. reflexivity.
Defined.

(** ** Degenerate triangles *)

Lemma accumulate_skip (vs : list Vertex) (acc : option (Z * Z)) (t : N * N * N) :
  triangleHash vs t = Some None -> accumulate vs acc t = acc.
Proof.
  intros Ht. unfold accumulate. rewrite Ht. destruct acc; reflexivity.
Qed.

(** C4. Degeneracy exclusion: [rotateTriangle] flags a triangle as
    degenerate exactly when two of its three vertices are byte-equal, and
    an index triple that gathers such a triangle can be removed from the
    index buffer (at a triangle boundary) without changing [hashMesh]. *)
Theorem degenerate_triangle_excluded
    (vs : list Vertex) (pre post : list N) (i0 i1 i2 : N) (a b c : Vertex) :
  (length pre mod 3 = 0)%nat ->
  vs !! N.to_nat i0 = Some a ->
  vs !! N.to_nat i1 = Some b ->
  vs !! N.to_nat i2 = Some c ->
  ((rotateTriangle (mkTriangle a b c)).1 = false <->
   Vertex_bytes a = Vertex_bytes b \/ Vertex_bytes a = Vertex_bytes c \/
   Vertex_bytes b = Vertex_bytes c) /\
  (Vertex_bytes a = Vertex_bytes b \/ Vertex_bytes a = Vertex_bytes c \/
   Vertex_bytes b = Vertex_bytes c ->
   hashMesh (mkMesh vs (pre ++ i0 :: i1 :: i2 :: post)) =
   hashMesh (mkMesh vs (pre ++ post))).
Proof.
  intros Hpre Ha Hb Hc. split; [apply rotateTriangle_flag|].
  intros Hdeg. apply rotateTriangle_flag in Hdeg.
  rewrite !hashMesh_triples. cbn [vertices indices].
  rewrite !triples_app by exact Hpre. cbn [triples].
  unfold hashTriples. rewrite !fold_left_app. cbn [fold_left].
  rewrite accumulate_skip; [reflexivity|].
  unfold triangleHash. cbn [fst snd]. rewrite Ha, Hb, Hc.
  cbn [mbind option_bind]. rewrite Hdeg. reflexivity.
Qed.

Lemma degenerate_triangle_excluded_witness :
  ((length [0; 1; 2]%N mod 3 = 0)%nat /\
   vertices unit_plane !! N.to_nat 1 = Some plane_v1 /\
   vertices unit_plane !! N.to_nat 3 = Some plane_v3 /\
   Vertex_bytes plane_v1 = Vertex_bytes plane_v1) /\
  (rotateTriangle (mkTriangle plane_v1 plane_v1 plane_v3)).1 = false /\
  hashMesh (mkMesh (vertices unit_plane) ([0; 1; 2] ++ 1 :: 1 :: 3 :: [2; 1; 3])%N) =
  hashMesh (mkMesh (vertices unit_plane) ([0; 1; 2] ++ [2; 1; 3])%N).
Proof.
  destruct (degenerate_triangle_excluded (vertices unit_plane)
              [0; 1; 2]%N [2; 1; 3]%N 1 1 3 plane_v1 plane_v1 plane_v3)
    as [H1 H2]; try reflexivity.
  split; [repeat split|].
  split; [apply H1; left; reflexivity | apply H2; left; reflexivity].
Defined.

(** ** Swapping elements and triangles *)

Lemma insert_Permutation_cons {A : Type} (l : list A) :
  forall (i : nat) (x y : A),
    l !! i = Some x -> Permutation (x :: <[i := y]> l) (y :: l).
Proof.
  induction l as [|z l IH]; intros [|i] x y Hx; try discriminate.
  - injection Hx as ->. apply perm_swap.
  - cbn in Hx |- *. rewrite perm_swap. rewrite (IH i x y Hx). apply perm_swap.
Qed.

Lemma transp_Permutation {A : Type} (l l' : list A) (i j : nat) :
  (i < length l)%nat -> (j < length l)%nat ->
  (forall k, l' !! k = l !! transp i j k) ->
  Permutation l' l.
Proof.
  intros Hi Hj Hl'.
  destruct (lookup_lt_is_Some_2 l i Hi) as [x Hx].
  destruct (lookup_lt_is_Some_2 l j Hj) as [y Hy].
  destruct (decide (i = j)) as [->|Hne].
  - replace l' with l; [reflexivity|]. apply list_eq. intros k.
    rewrite Hl'. unfold transp. repeat case_decide; subst; reflexivity.
  - assert (l' = <[j := x]> (<[i := y]> l)) as ->.
    { apply list_eq. intros k. rewrite Hl'. unfold transp.
      destruct (decide (k = j)) as [->|Hkj].
      - rewrite list_lookup_insert_eq by (rewrite length_insert; lia). exact Hx.
      - rewrite list_lookup_insert_ne by congruence.
        destruct (decide (k = i)) as [->|Hki].
        + rewrite list_lookup_insert_eq by lia. exact Hy.
        + rewrite list_lookup_insert_ne by congruence. reflexivity. }
    apply (Permutation_cons_inv (a := y)).
    rewrite insert_Permutation_cons
      by (rewrite list_lookup_insert_ne by congruence; exact Hy).
    apply insert_Permutation_cons, Hx.
Qed.

Lemma swapIndices_spec (l : list N) (a b : Z) :
  0 <= a -> 0 <= b ->
  (Z.to_nat a < length l)%nat -> (Z.to_nat b < length l)%nat ->
  exists l', swapIndices l a b = Some l' /\ length l' = length l /\
             forall p, l' !! p = l !! transp (Z.to_nat a) (Z.to_nat b) p.
Proof.
  intros Ha Hb Hla Hlb. unfold swapIndices.
  destruct (lookup_lt_is_Some_2 l _ Hla) as [t Ht].
  destruct (lookup_lt_is_Some_2 l _ Hlb) as [x Hx].
  rewrite Ht, Hx. cbn [mbind option_bind].
  eexists. split; [reflexivity|]. split; [rewrite !length_insert; reflexivity|].
  intros p. unfold transp.
  destruct (decide (p = Z.to_nat b)) as [->|Hpb].
  - rewrite list_lookup_insert_eq by (rewrite length_insert; lia). symmetry. exact Ht.
  - rewrite list_lookup_insert_ne by congruence.
    destruct (decide (p = Z.to_nat a)) as [->|Hpa].
    + rewrite list_lookup_insert_eq by lia. symmetry. exact Hx.
    + rewrite list_lookup_insert_ne by congruence. reflexivity.
Qed.

Lemma transp_triple (J I k c : nat) :
  (c < 3)%nat ->
  transp (J * 3 + 0) (I * 3 + 0)
    (transp (J * 3 + 1) (I * 3 + 1)
       (transp (J * 3 + 2) (I * 3 + 2) (k * 3 + c))) =
  (transp J I k * 3 + c)%nat.
Proof.
  intros Hc. unfold transp. repeat case_decide; lia.
Qed.

Lemma transp_outside (J I p n : nat) :
  (J < n)%nat -> (I < n)%nat -> (3 * n <= p)%nat ->
  transp (J * 3 + 0) (I * 3 + 0)
    (transp (J * 3 + 1) (I * 3 + 1)
       (transp (J * 3 + 2) (I * 3 + 2) p)) = p.
Proof.
  intros HJ HI Hp. unfold transp. repeat case_decide; lia.
Qed.

(** ** [optRandomShuffle] *)

Lemma usize_small (x : Z) : 0 <= x < 2 ^ 64 -> usize x = x.
Proof. intros H. unfold usize. apply Z.mod_small, H. Qed.

(** One Fisher-Yates step: triangles [j] and [i] change places, every
    other element of the buffer stays where it is. *)
Lemma swapTriangles_spec (l : list N) (j i : Z) :
  0 <= j -> 0 <= i ->
  3 * j + 2 < Z.of_nat (length l) ->
  3 * i + 2 < Z.of_nat (length l) ->
  Z.of_nat (length l) < 2 ^ 64 ->
  exists l', swapTriangles l j i = Some l' /\ length l' = length l /\
             Permutation (triples l') (triples l) /\
             (forall p, (3 * (length l / 3) <= p)%nat -> l' !! p = l !! p).
Proof.
  intros Hj Hi Hjl Hil Hl. unfold swapTriangles.
  rewrite !usize_small by lia.
  destruct (swapIndices_spec l (3 * j + 0) (3 * i + 0)) as (l0 & -> & Hlen0 & Hl0);
    try lia.
  cbn [mbind option_bind].
  destruct (swapIndices_spec l0 (3 * j + 1) (3 * i + 1)) as (l1 & -> & Hlen1 & Hl1);
    try lia.
  cbn [mbind option_bind].
  destruct (swapIndices_spec l1 (3 * j + 2) (3 * i + 2)) as (l2 & -> & Hlen2 & Hl2);
    try lia.
  exists l2. split; [reflexivity|]. split; [lia|].
  set (J := Z.to_nat j). set (I := Z.to_nat i).
  assert (forall p, l2 !! p =
            l !! transp (J * 3 + 0) (I * 3 + 0)
                   (transp (J * 3 + 1) (I * 3 + 1)
                      (transp (J * 3 + 2) (I * 3 + 2) p))) as Hl2'.
  { intros p. rewrite Hl2, Hl1, Hl0.
    replace (Z.to_nat (3 * j + 0)) with (J * 3 + 0)%nat by lia.
    replace (Z.to_nat (3 * i + 0)) with (I * 3 + 0)%nat by lia.
    replace (Z.to_nat (3 * j + 1)) with (J * 3 + 1)%nat by lia.
    replace (Z.to_nat (3 * i + 1)) with (I * 3 + 1)%nat by lia.
    replace (Z.to_nat (3 * j + 2)) with (J * 3 + 2)%nat by lia.
    replace (Z.to_nat (3 * i + 2)) with (I * 3 + 2)%nat by lia.
    reflexivity. }
  split.
  - apply (transp_Permutation _ _ J I).
    + rewrite triples_length. apply Nat.div_le_lower_bound; lia.
    + rewrite triples_length. apply Nat.div_le_lower_bound; lia.
    + intros k. rewrite !triples_lookup, !Hl2'.
      rewrite !transp_triple by lia. reflexivity.
  - intros p Hp. rewrite Hl2'.
    rewrite (transp_outside J I p (length l / 3)); try reflexivity; try exact Hp.
    + apply Nat.div_le_lower_bound; lia.
    + apply Nat.div_le_lower_bound; lia.
Qed.

(** The loop started at a triangle [i] inside the buffer runs [i] times
    and ends; what it leaves is a rearrangement of the triangles. *)
Lemma optRandomShuffle_loop_spec (fuel : nat) :
  forall (l : list N) (i rng : Z),
    0 <= i ->
    3 * i + 2 < Z.of_nat (length l) ->
    Z.of_nat (length l) < 2 ^ 64 ->
    (Z.to_nat i <= fuel)%nat ->
    exists l', optRandomShuffle_loop fuel l i rng = Done l' /\
               length l' = length l /\
               Permutation (triples l') (triples l) /\
               (forall p, (3 * (length l / 3) <= p)%nat -> l' !! p = l !! p).
Proof.
  induction fuel as [|fuel IH]; intros l i rng Hi Hil Hl Hfuel.
  - assert (i = 0) as -> by lia. exists l. cbn. auto.
  - cbn [optRandomShuffle_loop].
    destruct (Z.gtb_spec i 0) as [Hpos|Hzero].
    + rewrite (usize_small (i + 1)) by lia.
      destruct (Z.eqb_spec (i + 1) 0) as [E|_]; [lia|].
      pose proof (Z.mod_pos_bound rng (i + 1) ltac:(lia)) as Hj.
      destruct (swapTriangles_spec l (rng mod (i + 1)) i) as (l1 & -> & Hlen1 & HP1 & Hrest1);
        try lia.
      rewrite (usize_small (i - 1)) by lia.
      destruct (IH l1 (i - 1) (lcg rng)) as (l' & -> & Hlen' & HP' & Hrest'); try lia.
      exists l'. split; [reflexivity|]. split; [lia|]. split.
      * rewrite HP'. exact HP1.
      * intros p Hp. rewrite Hrest' by (rewrite Hlen1; exact Hp). apply Hrest1, Hp.
    + exists l. auto.
Qed.

(** C10. [optRandomShuffle] on a mesh with at least one triangle ends
    (any fuel above the triangle count is enough), leaves the vertex
    buffer and the length of the index buffer alone, rearranges the index
    buffer by whole triangles only (the triangle lists are permutations of
    each other and the elements after the last whole triangle stay in
    place), and so keeps [hashMesh]. Without a triangle the counter
    [triangle_count - 1] wraps to the largest [size_t], [i + 1] wraps to 0
    and the first [rng % (i + 1)] divides by zero. *)
Theorem optRandomShuffle_preserves_triangles (fuel : nat) (mesh : Mesh) :
  Z.of_nat (length (indices mesh)) < 2 ^ 64 ->
  (length (indices mesh) / 3 < fuel)%nat ->
  ((3 <= length (indices mesh))%nat ->
   exists mesh',
     optRandomShuffle fuel mesh = Done mesh' /\
     vertices mesh' = vertices mesh /\
     length (indices mesh') = length (indices mesh) /\
     Permutation (triples (indices mesh')) (triples (indices mesh)) /\
     (forall p, (3 * (length (indices mesh) / 3) <= p)%nat ->
                indices mesh' !! p = indices mesh !! p) /\
     hashMesh mesh' = hashMesh mesh) /\
  ((length (indices mesh) < 3)%nat -> optRandomShuffle fuel mesh = Fault).
Proof.
  intros Hsize Hfuel. split.
  - intros Htri. unfold optRandomShuffle.
    assert (1 <= length (indices mesh) / 3)%nat as Htc
      by (apply Nat.div_le_lower_bound; lia).
    pose proof (Nat.Div0.mul_div_le (length (indices mesh)) 3) as Hdiv.
    rewrite usize_small by lia.
    destruct (optRandomShuffle_loop_spec fuel (indices mesh)
                (Z.of_nat (length (indices mesh) / 3) - 1) 0)
      as (l' & -> & Hlen & HP & Hrest); try lia.
    eexists. split; [reflexivity|]. cbn [vertices indices].
    repeat split; auto.
    rewrite !hashMesh_triples. cbn [vertices indices].
    apply hashTriples_Permutation, HP.
  - intros Hnone. unfold optRandomShuffle.
    rewrite Nat.div_small by exact Hnone.
    destruct fuel as [|fuel]; [|reflexivity].
    rewrite Nat.div_small in Hfuel by exact Hnone. lia.
Qed.

Lemma optRandomShuffle_preserves_triangles_witness :
  (Z.of_nat (length (indices unit_plane)) < 2 ^ 64 /\
   (length (indices unit_plane) / 3 < 3)%nat /\
   (3 <= length (indices unit_plane))%nat) /\
  (exists mesh',
     optRandomShuffle 3 unit_plane = Done mesh' /\
     vertices mesh' = vertices unit_plane /\
     length (indices mesh') = length (indices unit_plane) /\
     Permutation (triples (indices mesh')) (triples (indices unit_plane)) /\
     (forall p, (3 * (length (indices unit_plane) / 3) <= p)%nat ->
                indices mesh' !! p = indices unit_plane !! p) /\
     hashMesh mesh' = hashMesh unit_plane) /\
  ((length (indices (mkMesh [] [])) < 3)%nat /\
   optRandomShuffle 3 (mkMesh [] []) = Fault).
Proof.
  assert (Z.of_nat (length (indices unit_plane)) < 2 ^ 64) as H1
    by (vm_compute; reflexivity).
  assert (length (indices unit_plane) / 3 < 3)%nat as H2 by (vm_compute; lia).
  assert (3 <= length (indices unit_plane))%nat as H3 by (vm_compute; lia).
  split; [auto|]. split.
  - apply (optRandomShuffle_preserves_triangles 3 unit_plane H1 H2), H3.
  - split; [simpl; lia|].
    apply (optRandomShuffle_preserves_triangles 3 (mkMesh [] [])); simpl; lia.
Defined.

(** ** The harness [optimize] *)

Section HarnessProperties.

Context {VertexCacheStatistics VertexFetchStatistics OverdrawStatistics : Type}.
Context (analyzeVertexCache :
           list N -> nat -> nat -> nat -> nat -> nat -> VertexCacheStatistics).
Context (analyzeVertexFetch : list N -> nat -> nat -> nat -> VertexFetchStatistics).
Context (analyzeOverdraw :
           list N -> nat -> list Vertex -> nat -> nat -> OverdrawStatistics).

#[local] Abbreviation run := (optimize _ _ _ analyzeVertexCache analyzeVertexFetch analyzeOverdraw).
#[local] Abbreviation stats := (analyze _ _ _ analyzeVertexCache analyzeVertexFetch analyzeOverdraw).

Lemma fresh_copy_unused (heap : gmap positive Mesh) : heap !! fresh (dom heap) = None.
Proof. apply not_elem_of_dom, is_fresh. Qed.

Lemma fresh_copy_ne (heap : gmap positive Mesh) (l : positive) :
  is_Some (heap !! l) -> fresh (dom heap) <> l.
Proof.
  intros [m Hm] E. rewrite <- E, fresh_copy_unused in Hm. discriminate.
Qed.

(** Every store [optimize] can leave behind agrees with the store it
    started from on every object that existed before the call. *)
Lemma optimize_store (heap : gmap positive Mesh) (mesh : positive)
    (optf : Mesh -> option Mesh) (l : positive) :
  is_Some (heap !! l) -> (run mesh optf heap).2 !! l = heap !! l.
Proof.
  intros Hl. pose proof (fresh_copy_ne heap l Hl) as Hne.
  unfold optimize. destruct (heap !! mesh) as [original|]; [|reflexivity].
  destruct (optf original) as [transformed|]; cbn [snd].
  - rewrite lookup_insert_eq.
    destruct (<[_ := transformed]> _ !! mesh) as [m|]; cbn [snd].
    + destruct (negb (isMeshValid transformed)); cbn [snd].
      * rewrite !lookup_insert_ne by exact Hne. reflexivity.
      * destruct (hashMesh m) as [hm|], (hashMesh transformed) as [hc|]; cbn [snd];
          try (rewrite !lookup_insert_ne by exact Hne; reflexivity).
        destruct (negb (hm =? hc)); cbn [snd].
        -- rewrite !lookup_insert_ne by exact Hne. reflexivity.
        -- rewrite lookup_delete_ne by exact Hne.
           rewrite !lookup_insert_ne by exact Hne. reflexivity.
    + rewrite !lookup_insert_ne by exact Hne. reflexivity.
  - rewrite lookup_insert_ne by exact Hne. reflexivity.
Qed.

(** What [optimize] does once the pass has produced [transformed]. *)
Lemma optimize_status (heap : gmap positive Mesh) (mesh : positive)
    (optf : Mesh -> option Mesh) (original transformed : Mesh) :
  heap !! mesh = Some original ->
  optf original = Some transformed ->
  (run mesh optf heap).1 =
    if negb (isMeshValid transformed) then Aborted _ _ _ AssertValid
    else match hashMesh original, hashMesh transformed with
         | Some hm, Some hc =>
             if negb (hm =? hc) then Aborted _ _ _ AssertHash
             else Returned _ _ _ (stats transformed)
         | _, _ => Undefined _ _ _
         end.
Proof.
  intros Hmesh Hoptf.
  pose proof (fresh_copy_ne heap mesh ltac:(rewrite Hmesh; eauto)) as Hne.
  unfold optimize. rewrite Hmesh, Hoptf, lookup_insert_eq.
  rewrite !lookup_insert_ne by exact Hne. rewrite Hmesh.
  destruct (negb (isMeshValid transformed)); [reflexivity|].
  destruct (hashMesh original) as [hm|], (hashMesh transformed) as [hc|];
    try reflexivity.
  destruct (negb (hm =? hc)); reflexivity.
Qed.

(** C6. The harness never writes to the caller's mesh: [optimize] copies
    the mesh into a fresh object, runs the pass on that object only, and
    whatever the outcome, every object that existed before the call, the
    original included, is left as it was. With the pass's result
    [transformed] in the copy, the harness first asserts
    [isMeshValid(copy)], then that [hashMesh(mesh)] equals
    [hashMesh(copy)], and only when both hold computes the statistics, on
    the copy. *)
Theorem optimize_keeps_original (heap : gmap positive Mesh) (mesh : positive)
    (optf : Mesh -> option Mesh) (original : Mesh) :
  heap !! mesh = Some original ->
  (run mesh optf heap).2 !! mesh = Some original /\
  (forall l, is_Some (heap !! l) -> (run mesh optf heap).2 !! l = heap !! l) /\
  (forall transformed,
     optf original = Some transformed ->
     (run mesh optf heap).1 =
       if negb (isMeshValid transformed) then Aborted _ _ _ AssertValid
       else match hashMesh original, hashMesh transformed with
            | Some hm, Some hc =>
                if negb (hm =? hc) then Aborted _ _ _ AssertHash
                else Returned _ _ _ (stats transformed)
            | _, _ => Undefined _ _ _
            end) /\
  (forall r,
     (run mesh optf heap).1 = Returned _ _ _ r ->
     exists transformed,
       optf original = Some transformed /\
       isMeshValid transformed = true /\
       hashMesh transformed = hashMesh original /\
       r = stats transformed /\
       (run mesh optf heap).2 = heap).
Proof.
  intros Hmesh. split; [|split; [|split]].
  - rewrite optimize_store by (rewrite Hmesh; eauto). exact Hmesh.
  - intros l. apply optimize_store.
  - intros transformed. apply optimize_status, Hmesh.
  - intros r Hr. destruct (optf original) as [transformed|] eqn:Hoptf.
    + rewrite (optimize_status heap mesh optf original transformed Hmesh Hoptf) in Hr.
      exists transformed. revert Hr.
      unfold optimize. rewrite Hmesh, Hoptf, lookup_insert_eq.
      rewrite !lookup_insert_ne
        by (apply fresh_copy_ne; rewrite Hmesh; eauto).
      rewrite Hmesh.
      destruct (isMeshValid transformed); cbn [negb]; [|discriminate].
      destruct (hashMesh original) as [hm|], (hashMesh transformed) as [hc|];
        try discriminate.
      destruct (Z.eqb_spec hm hc) as [->|]; cbn [negb]; [|discriminate].
      intros [= <-]. cbn [snd]. repeat split.
      rewrite insert_insert_eq. apply delete_insert_id, fresh_copy_unused.
    + revert Hr. unfold optimize. rewrite Hmesh, Hoptf. discriminate.
Qed.

End HarnessProperties.

Lemma optimize_keeps_original_witness :
  unit_plane_store !! 1%positive = Some unit_plane /\
  (optimize unit unit unit (fun _ _ _ _ _ _ => tt) (fun _ _ _ _ => tt)
     (fun _ _ _ _ _ => tt) 1%positive optRandomShuffle_pass unit_plane_store).2
    !! 1%positive = Some unit_plane.
Proof.
  assert (unit_plane_store !! 1%positive = Some unit_plane) as H
    by apply lookup_singleton_eq.
  destruct (optimize_keeps_original (fun _ _ _ _ _ _ => tt) (fun _ _ _ _ => tt)
              (fun _ _ _ _ _ => tt) unit_plane_store 1%positive
              optRandomShuffle_pass unit_plane H)
    as (H1 & _).
  split; [exact H | exact H1].
Defined.

(** * Further properties *)

(** ** More on [rotateTriangle] *)

(** Case split on every comparison of the goal, closing the impossible
    branches as they appear. *)
Ltac split_keys :=
  repeat (match goal with
          | |- context [?x <? ?y] => destruct (Z.ltb_spec x y)
          | |- context [?x =? ?y] => destruct (Z.eqb_spec x y)
          end; try (exfalso; lia)).

(** [rotateTriangle] in terms of the keys, for every triangle. *)
Lemma rotateTriangle_keys (a b c : Vertex) :
  rotateTriangle (mkTriangle a b c) =
    (negb (vkey a =? vkey b) && negb (vkey a =? vkey c) && negb (vkey b =? vkey c),
     if (vkey b <? vkey c) && (vkey b <? vkey a) then mkTriangle b c a
     else if (vkey c <? vkey a) && (vkey c <? vkey b) then mkTriangle c a b
     else mkTriangle a b c).
Proof.
  unfold rotateTriangle. cbn [v_0 v_1 v_2].
  pose proof (memcmp_Vertex_lt a b); pose proof (memcmp_Vertex_eq a b).
  pose proof (memcmp_Vertex_lt a c); pose proof (memcmp_Vertex_eq a c).
  pose proof (memcmp_Vertex_lt b c); pose proof (memcmp_Vertex_eq b c).
  rewrite !Z.gtb_ltb. split_keys; reflexivity.
Qed.

(** X1. Canonicalising twice is canonicalising once, for every triangle,
    degenerate or not: the flag and the rotated triangle are unchanged by
    a second call. *)
Theorem rotateTriangle_idempotent (t : Triangle) :
  rotateTriangle (rotateTriangle t).2 = rotateTriangle t.
Proof.
  destruct t as [a b c]. rewrite (rotateTriangle_keys a b c). cbn [snd].
  split_keys; cbn [andb negb]; rewrite rotateTriangle_keys;
    split_keys; reflexivity.
Qed.

(** X2. Degeneracy does not depend on the order of the vertices: the
    flag is the same for all six orderings of a triangle. *)
Theorem rotateTriangle_flag_symmetric (a b c : Vertex) :
  (rotateTriangle (mkTriangle b c a)).1 = (rotateTriangle (mkTriangle a b c)).1 /\
  (rotateTriangle (mkTriangle c a b)).1 = (rotateTriangle (mkTriangle a b c)).1 /\
  (rotateTriangle (mkTriangle c b a)).1 = (rotateTriangle (mkTriangle a b c)).1 /\
  (rotateTriangle (mkTriangle a c b)).1 = (rotateTriangle (mkTriangle a b c)).1 /\
  (rotateTriangle (mkTriangle b a c)).1 = (rotateTriangle (mkTriangle a b c)).1.
Proof.
  rewrite !rotateTriangle_keys. cbn [fst].
  repeat split; split_keys; reflexivity.
Qed.

(** X3. Rotation invariance stops at degenerate triangles: when the
    repeated vertex is the smaller one, [rotateTriangle] returns each of
    the three rotations of the triangle unchanged, so they keep three
    different forms. This is what skipping them in [hashMesh] avoids. *)
Theorem rotateTriangle_degenerate_not_invariant (a b : Vertex) :
  memcmp_Vertex a b < 0 ->
  (rotateTriangle (mkTriangle a a b)).2 = mkTriangle a a b /\
  (rotateTriangle (mkTriangle a b a)).2 = mkTriangle a b a /\
  (rotateTriangle (mkTriangle b a a)).2 = mkTriangle b a a /\
  (rotateTriangle (mkTriangle a b a)).2 <> (rotateTriangle (mkTriangle a a b)).2 /\
  (rotateTriangle (mkTriangle b a a)).2 <> (rotateTriangle (mkTriangle a a b)).2 /\
  (rotateTriangle (mkTriangle b a a)).2 <> (rotateTriangle (mkTriangle a b a)).2.
Proof.
  intros Hlt. apply memcmp_Vertex_lt in Hlt.
  assert (a <> b) as Hne by (intros ->; lia).
  rewrite !rotateTriangle_keys. cbn [snd].
  split_keys; cbn [andb]; repeat split; congruence.
Qed.

Lemma rotateTriangle_degenerate_not_invariant_witness :
  memcmp_Vertex plane_v0 plane_v1 < 0 /\
  (rotateTriangle (mkTriangle plane_v1 plane_v0 plane_v0)).2 <>
  (rotateTriangle (mkTriangle plane_v0 plane_v1 plane_v0)).2.
Proof.
  assert (memcmp_Vertex plane_v0 plane_v1 < 0) as H by (vm_compute; reflexivity).
  split; [exact H|].
  apply (rotateTriangle_degenerate_not_invariant plane_v0 plane_v1 H).
Defined.

(** ** [hashMesh] and the order of the vertices of a triangle *)

Lemma triangleHash_rotate (vs : list Vertex) (i0 i1 i2 : N) :
  triangleHash vs (i1, i2, i0) = triangleHash vs (i0, i1, i2).
Proof.
  unfold triangleHash. cbn [fst snd].
  destruct (vs !! N.to_nat i0) as [a|], (vs !! N.to_nat i1) as [b|],
    (vs !! N.to_nat i2) as [c|]; cbn [mbind option_bind]; try reflexivity.
  rewrite (rotateTriangle_keys a b c), (rotateTriangle_keys b c a). cbn [fst snd].
  split_keys; cbn [andb negb]; reflexivity.
Qed.

Lemma triangleHash_rotationOf (vs : list Vertex) (r t : N * N * N) :
  rotationOf r t -> triangleHash vs r = triangleHash vs t.
Proof.
  destruct t as [[i0 i1] i2]. unfold rotationOf. cbn [fst snd].
  intros [->|[->| ->]].
  - reflexivity.
  - rewrite (triangleHash_rotate vs i1 i2 i0). apply triangleHash_rotate.
  - apply triangleHash_rotate.
Qed.

Lemma fold_accumulate_Forall2 (vs' vs : list Vertex) (rs ts : list (N * N * N)) :
  Forall2 (fun r t => triangleHash vs' r = triangleHash vs t) rs ts ->
  forall acc, fold_left (accumulate vs') rs acc = fold_left (accumulate vs) ts acc.
Proof.
  induction 1 as [|r t rs ts Hrt _ IH]; intros acc; [reflexivity|].
  cbn [fold_left]. unfold accumulate at 2 4. rewrite Hrt. apply IH.
Qed.

Lemma hashMesh_rotationOf (vs : list Vertex) (result original : list N) :
  Forall2 rotationOf (triples result) (triples original) ->
  hashMesh (mkMesh vs result) = hashMesh (mkMesh vs original).
Proof.
  intros H. rewrite !hashMesh_triples. cbn [vertices indices]. unfold hashTriples.
  rewrite (fold_accumulate_Forall2 vs vs (triples result) (triples original));
    [reflexivity|].
  eapply Forall2_impl; [exact H|]. intros r t. apply triangleHash_rotationOf.
Qed.

(** X4. The fingerprint does not depend on which vertex of a triangle is
    listed first: if every triangle of one index buffer is a cyclic
    rotation of the triangle at the same place in the other, the two
    meshes have the same [hashMesh]. *)
Theorem hashMesh_rotation_invariant (vs : list Vertex) (result original : list N) :
  Forall2 rotationOf (triples result) (triples original) ->
  hashMesh (mkMesh vs result) = hashMesh (mkMesh vs original).
Proof. apply hashMesh_rotationOf. Qed.

Lemma hashMesh_rotation_invariant_witness :
  Forall2 rotationOf (triples [1; 2; 0; 3; 2; 1]%N) (triples (indices unit_plane)) /\
  hashMesh (mkMesh (vertices unit_plane) [1; 2; 0; 3; 2; 1]%N) = hashMesh unit_plane.
Proof.
  assert (Forall2 rotationOf (triples [1; 2; 0; 3; 2; 1]%N) (triples (indices unit_plane)))
    as H.
  { simpl. constructor; [right; right; reflexivity|].
    constructor; [right; left; reflexivity | constructor]. }
  split; [exact H|].
  apply (hashMesh_rotation_invariant (vertices unit_plane) _ _ H).
Defined.

(** ** [hashMesh] and the layout of the vertex buffer *)

Lemma triples_map (f : N -> N) (l : list N) :
  triples (map f l) = map (fun t => (f t.1.1, f t.1.2, f t.2)) (triples l).
Proof.
  induction l as [|a|a b|a b c l IH] using list_ind3; try reflexivity.
  cbn [map triples fst snd]. rewrite IH. reflexivity.
Qed.

Lemma triangleHash_lookups (vs' vs : list Vertex) (r t : N * N * N) :
  vs' !! N.to_nat r.1.1 = vs !! N.to_nat t.1.1 ->
  vs' !! N.to_nat r.1.2 = vs !! N.to_nat t.1.2 ->
  vs' !! N.to_nat r.2 = vs !! N.to_nat t.2 ->
  triangleHash vs' r = triangleHash vs t.
Proof.
  intros Ha Hb Hc. unfold triangleHash. rewrite Ha, Hb, Hc. reflexivity.
Qed.

(** X5. The fingerprint looks at vertex content only: renumbering the
    vertices (a new vertex buffer [vs'] and every index [i] replaced by
    [remap i], with [vs'[remap i]] holding what [vs[i]] held) leaves
    [hashMesh] unchanged. *)
Theorem hashMesh_remap (vs vs' : list Vertex) (original : list N) (remap : N -> N) :
  (forall i, In i original -> vs' !! N.to_nat (remap i) = vs !! N.to_nat i) ->
  hashMesh (mkMesh vs' (map remap original)) = hashMesh (mkMesh vs original).
Proof.
  intros Hremap. rewrite !hashMesh_triples. cbn [vertices indices].
  rewrite triples_map. unfold hashTriples.
  rewrite (fold_accumulate_Forall2 vs' vs _ (triples original)); [reflexivity|].
  apply Forall2_fmap_l, Forall_Forall2_diag.
  assert (Forall (fun i => In i original) original) as Hin
    by (apply Forall_forall; intros i Hi; apply list_elem_of_In, Hi).
  apply triples_Forall in Hin. eapply Forall_impl; [exact Hin|].
  intros t (Ha & Hb & Hc). apply triangleHash_lookups; cbn [fst snd]; auto.
Qed.

Lemma hashMesh_remap_witness :
  (forall i, In i (indices unit_plane) ->
     [plane_v3; plane_v2; plane_v1; plane_v0] !! N.to_nat (3 - i) =
     vertices unit_plane !! N.to_nat i) /\
  hashMesh (mkMesh [plane_v3; plane_v2; plane_v1; plane_v0]
              (map (fun i => 3 - i)%N (indices unit_plane))) =
  hashMesh unit_plane.
Proof.
  assert (forall i, In i (indices unit_plane) ->
            [plane_v3; plane_v2; plane_v1; plane_v0] !! N.to_nat (3 - i) =
            vertices unit_plane !! N.to_nat i) as H.
  { intros i Hi. simpl in Hi.
    destruct Hi as [<-|[<-|[<-|[<-|[<-|[<-|[]]]]]]]; reflexivity. }
  split; [exact H|].
  apply (hashMesh_remap (vertices unit_plane) _ (indices unit_plane) _ H).
Defined.

(** ** When [hashMesh] is defined, and when it is 0 *)

Lemma triangleHash_defined_inv (vs : list Vertex) (t : N * N * N) :
  is_Some (triangleHash vs t) -> triangleInRange vs t.
Proof.
  unfold triangleHash, triangleInRange. intros [o Ho].
  destruct (vs !! N.to_nat t.1.1) as [a|] eqn:Ha; [|discriminate].
  destruct (vs !! N.to_nat t.1.2) as [b|] eqn:Hb; [|discriminate].
  destruct (vs !! N.to_nat t.2) as [c|] eqn:Hc; [|discriminate].
  repeat split; eapply lookup_lt_Some; eassumption.
Qed.

Lemma fold_accumulate_defined_inv (vs : list Vertex) (ts : list (N * N * N)) :
  forall acc, is_Some (fold_left (accumulate vs) ts acc) ->
              Forall (triangleInRange vs) ts.
Proof.
  induction ts as [|t ts IH]; intros acc Hs; [constructor|].
  cbn [fold_left] in Hs. constructor; [|eapply IH, Hs].
  apply triangleHash_defined_inv.
  destruct (triangleHash vs t) as [o|] eqn:Ht; [eauto|].
  exfalso. unfold accumulate in Hs at 2. rewrite Ht in Hs.
  destruct acc; cbn [mbind option_bind] in Hs;
    rewrite fold_accumulate_None in Hs; destruct Hs; discriminate.
Qed.

(** X6. [hashMesh] is free of out-of-bounds reads exactly when every
    index of a whole triangle addresses a vertex; indices after the last
    whole triangle are never read. *)
Theorem hashMesh_defined_iff (mesh : Mesh) :
  is_Some (hashMesh mesh) <->
  Forall (triangleInRange (vertices mesh)) (triples (indices mesh)).
Proof.
  rewrite hashMesh_triples. unfold hashTriples. split.
  - intros [h Hh].
    destruct (fold_left _ _ _) as [acc|] eqn:Hfold; [|discriminate].
    eapply fold_accumulate_defined_inv. rewrite Hfold. eauto.
  - intros Hall.
    destruct (fold_accumulate_defined (vertices mesh) (triples (indices mesh)))
      with (h := (0, 0)) as [acc ->].
    + eapply Forall_impl; [exact Hall|].
      intros t (Ha & Hb & Hc). apply triangleHash_defined; assumption.
    + eexists. reflexivity.
Qed.

Lemma fold_accumulate_skip (vs : list Vertex) (ts : list (N * N * N)) :
  Forall (fun t => triangleHash vs t = Some None) ts ->
  forall acc, fold_left (accumulate vs) ts acc = acc.
Proof.
  induction 1 as [|t ts Ht _ IH]; intros acc; [reflexivity|].
  cbn [fold_left]. rewrite (accumulate_skip vs acc t Ht). apply IH.
Qed.

(** X7. A mesh in which every whole triangle is degenerate, in
    particular a mesh without any whole triangle, has fingerprint 0. *)
Theorem hashMesh_all_degenerate (mesh : Mesh) :
  Forall (fun t => exists a b c,
            vertices mesh !! N.to_nat t.1.1 = Some a /\
            vertices mesh !! N.to_nat t.1.2 = Some b /\
            vertices mesh !! N.to_nat t.2 = Some c /\
            (rotateTriangle (mkTriangle a b c)).1 = false)
         (triples (indices mesh)) ->
  hashMesh mesh = Some 0.
Proof.
  intros Hall. rewrite hashMesh_triples. unfold hashTriples.
  rewrite fold_accumulate_skip; [reflexivity|].
  eapply Forall_impl; [exact Hall|].
  intros t (a & b & c & Ha & Hb & Hc & Hdeg). unfold triangleHash.
  rewrite Ha, Hb, Hc. cbn [mbind option_bind]. rewrite Hdeg. reflexivity.
Qed.

Lemma hashMesh_all_degenerate_witness :
  Forall (fun t => exists a b c,
            vertices unit_plane !! N.to_nat t.1.1 = Some a /\
            vertices unit_plane !! N.to_nat t.1.2 = Some b /\
            vertices unit_plane !! N.to_nat t.2 = Some c /\
            (rotateTriangle (mkTriangle a b c)).1 = false)
         (triples [0; 0; 1; 2; 3; 2; 1]%N) /\
  hashMesh (mkMesh (vertices unit_plane) [0; 0; 1; 2; 3; 2; 1]%N) = Some 0.
Proof.
  assert (Forall (fun t => exists a b c,
            vertices unit_plane !! N.to_nat t.1.1 = Some a /\
            vertices unit_plane !! N.to_nat t.1.2 = Some b /\
            vertices unit_plane !! N.to_nat t.2 = Some c /\
            (rotateTriangle (mkTriangle a b c)).1 = false)
         (triples [0; 0; 1; 2; 3; 2; 1]%N)) as H.
  { cbn [triples]. constructor; [|constructor; [|constructor]].
    - exists plane_v0, plane_v0, plane_v1. repeat split.
    - exists plane_v2, plane_v3, plane_v2. repeat split. }
  split; [exact H|].
  apply (hashMesh_all_degenerate (mkMesh (vertices unit_plane) [0; 0; 1; 2; 3; 2; 1]%N) H).
Defined.

(** ** The hashes are 32-bit values *)


Lemma u32_range (x : Z) : 0 <= u32 x < 2 ^ 32.
Proof. unfold u32. apply Z.mod_pos_bound. reflexivity. Qed.





(** ** [hashRange] and the bytes it reads *)

Lemma hashRange_loop_take (len : nat) :
  forall key h, hashRange_loop key len h = hashRange_loop (take len key) len h.
Proof.
  induction len as [len IH] using lt_wf_ind. intros key h.
  destruct len as [|[|[|[|n]]]]; try reflexivity.
  destruct key as [|b0 [|b1 [|b2 [|b3 key]]]]; try reflexivity.
  cbn [firstn hashRange_loop]. apply IH. lia.
Qed.

(** X9. [hashRange] reads whole words only: two buffers that agree on
    their first [4 * (len / 4)] bytes hash to the same value, whatever
    the trailing [len mod 4] bytes and anything after them hold. *)
Theorem hashRange_reads_whole_words (key key' : list byte) (len : nat) :
  take (4 * (len / 4)) key = take (4 * (len / 4)) key' ->
  hashRange key len = hashRange key' len.
Proof.
  intros Hprefix. unfold hashRange.
  rewrite (hashRange_loop_chunks len key), (hashRange_loop_chunks len key').
  rewrite (hashRange_loop_take _ key), (hashRange_loop_take _ key').
  rewrite Hprefix. reflexivity.
Qed.

Lemma hashRange_reads_whole_words_witness :
  take (4 * (7 / 4)) [x01; x02; x03; x04; x05; x06; x07] =
  take (4 * (7 / 4)) [x01; x02; x03; x04; xff; xfe; xfd; xfc] /\
  hashRange [x01; x02; x03; x04; x05; x06; x07] 7 =
  hashRange [x01; x02; x03; x04; xff; xfe; xfd; xfc] 7.
Proof.
  split; [reflexivity|].
  apply (hashRange_reads_whole_words
           [x01; x02; x03; x04; x05; x06; x07]
           [x01; x02; x03; x04; xff; xfe; xfd; xfc] 7).
  reflexivity.
Defined.

(** ** [optRandomShuffle] permutes the index buffer *)

Lemma div3_step (n : nat) : (S (S (S n)) / 3 = S (n / 3))%nat.
Proof.
  replace (S (S (S n))) with (1 * 3 + n)%nat by lia.
  rewrite Nat.div_add_l by lia. lia.
Qed.

Lemma untriples_triples (l : list N) :
  l = untriples (triples l) ++ drop (3 * (length l / 3)) l.
Proof.
  induction l as [|a|a b|a b c l IH] using list_ind3; try reflexivity.
  cbn [length]. rewrite div3_step.
  replace (3 * S (length l / 3))%nat with (S (S (S (3 * (length l / 3))))) by lia.
  cbn [triples untriples flat_map fst snd app skipn]. do 3 f_equal. exact IH.
Qed.

Lemma isMeshValid_true_iff (mesh : Mesh) :
  isMeshValid mesh = true <->
  (length (indices mesh) mod 3 = 0)%nat /\
  Forall (fun index => (N.to_nat index < length (vertices mesh))%nat) (indices mesh).
Proof.
  split; [apply isMeshValid_true|]. intros [Hlen Hall].
  unfold isMeshValid. rewrite Hlen. cbn [Nat.eqb negb].
  destruct (isMeshValid_loop _ _) eqn:E; [reflexivity|]. exfalso.
  apply isMeshValid_loop_false in E as (index & Hin & Hge).
  apply list_elem_of_In in Hin.
  rewrite Forall_forall in Hall. specialize (Hall index Hin). lia.
Qed.

(** What [optRandomShuffle] returns on a mesh with a triangle. *)
Lemma optRandomShuffle_spec (fuel : nat) (mesh : Mesh) :
  Z.of_nat (length (indices mesh)) < 2 ^ 64 ->
  (3 <= length (indices mesh))%nat ->
  (length (indices mesh) / 3 < fuel)%nat ->
  exists mesh',
    optRandomShuffle fuel mesh = Done mesh' /\
    vertices mesh' = vertices mesh /\
    Permutation (triples (indices mesh')) (triples (indices mesh)) /\
    Permutation (indices mesh') (indices mesh) /\
    isMeshValid mesh' = isMeshValid mesh.
Proof.
  intros Hsize Htri Hfuel. unfold optRandomShuffle.
  assert (1 <= length (indices mesh) / 3)%nat as Htc
    by (apply Nat.div_le_lower_bound; lia).
  pose proof (Nat.Div0.mul_div_le (length (indices mesh)) 3) as Hdiv.
  rewrite usize_small by lia.
  destruct (optRandomShuffle_loop_spec fuel (indices mesh)
              (Z.of_nat (length (indices mesh) / 3) - 1) 0)
    as (l' & -> & Hlen & HP & Hrest); try lia.
  set (mesh' := mkMesh (vertices mesh) l').
  assert (vertices mesh' = vertices mesh) as Hvs by reflexivity.
  change (length (indices mesh') = length (indices mesh)) in Hlen.
  change (Permutation (triples (indices mesh')) (triples (indices mesh))) in HP.
  change (forall p, (3 * (length (indices mesh) / 3) <= p)%nat ->
                    indices mesh' !! p = indices mesh !! p) in Hrest.
  clearbody mesh'.
  exists mesh'. split; [reflexivity|]. split; [exact Hvs|]. split; [exact HP|].
  assert (Permutation (indices mesh') (indices mesh)) as Hperm.
  { rewrite (untriples_triples (indices mesh')), (untriples_triples (indices mesh)).
    rewrite Hlen. apply Permutation_app.
    - apply Permutation_flat_map, HP.
    - replace (drop (3 * (length (indices mesh) / 3)) (indices mesh'))
        with (drop (3 * (length (indices mesh) / 3)) (indices mesh)); [reflexivity|].
      apply list_eq. intros k. rewrite !lookup_drop. symmetry. apply Hrest. lia. }
  split; [exact Hperm|].
  destruct (isMeshValid mesh) eqn:Hv.
  - apply isMeshValid_true_iff in Hv as [Hmod Hall].
    apply isMeshValid_true_iff. rewrite Hlen, Hvs. split; [exact Hmod|].
    rewrite Hperm. exact Hall.
  - destruct (isMeshValid mesh') eqn:Hv'; [|reflexivity].
    apply isMeshValid_true_iff in Hv' as [Hmod Hall].
    rewrite Hlen in Hmod. rewrite Hvs, Hperm in Hall.
    assert (isMeshValid mesh = true) by (apply isMeshValid_true_iff; auto).
    congruence.
Qed.

(** X10. With at least one triangle [optRandomShuffle] returns a mesh
    whose index buffer is a permutation of the one it was given (trailing
    elements included), so the result is valid exactly when the input
    is. *)
Theorem optRandomShuffle_permutes_indices (fuel : nat) (mesh : Mesh) :
  Z.of_nat (length (indices mesh)) < 2 ^ 64 ->
  (3 <= length (indices mesh))%nat ->
  (length (indices mesh) / 3 < fuel)%nat ->
  exists mesh',
    optRandomShuffle fuel mesh = Done mesh' /\
    Permutation (indices mesh') (indices mesh) /\
    isMeshValid mesh' = isMeshValid mesh.
Proof.
  intros Hsize Htri Hfuel.
  destruct (optRandomShuffle_spec fuel mesh Hsize Htri Hfuel)
    as (mesh' & Hrun & _ & _ & Hperm & Hvalid).
  exists mesh'. auto.
Qed.

Lemma optRandomShuffle_permutes_indices_witness :
  (Z.of_nat (length (indices unit_plane)) < 2 ^ 64 /\
   (3 <= length (indices unit_plane))%nat /\
   (length (indices unit_plane) / 3 < 3)%nat) /\
  exists mesh',
    optRandomShuffle 3 unit_plane = Done mesh' /\
    Permutation (indices mesh') (indices unit_plane) /\
    isMeshValid mesh' = isMeshValid unit_plane.
Proof.
  assert (Z.of_nat (length (indices unit_plane)) < 2 ^ 64) as H1
    by (vm_compute; reflexivity).
  assert (3 <= length (indices unit_plane))%nat as H2 by (vm_compute; lia).
  assert (length (indices unit_plane) / 3 < 3)%nat as H3 by (vm_compute; lia).
  split; [auto|].
  apply (optRandomShuffle_permutes_indices 3 unit_plane H1 H2 H3).
Defined.

(** ** The harness on the two passes of the demo that are in this file *)

Section HarnessPasses.

Context {VertexCacheStatistics VertexFetchStatistics OverdrawStatistics : Type}.
Context (analyzeVertexCache :
           list N -> nat -> nat -> nat -> nat -> nat -> VertexCacheStatistics).
Context (analyzeVertexFetch : list N -> nat -> nat -> nat -> VertexFetchStatistics).
Context (analyzeOverdraw :
           list N -> nat -> list Vertex -> nat -> nat -> OverdrawStatistics).

#[local] Abbreviation run :=
  (optimize _ _ _ analyzeVertexCache analyzeVertexFetch analyzeOverdraw).
#[local] Abbreviation stats :=
  (analyze _ _ _ analyzeVertexCache analyzeVertexFetch analyzeOverdraw).

(** A pass whose result is valid and hashes like the original makes
    [optimize] return its statistics and give back the store it got. *)
Lemma optimize_accepts (heap : gmap positive Mesh) (mesh : positive)
    (optf : Mesh -> option Mesh) (original transformed : Mesh) (h : Z) :
  heap !! mesh = Some original ->
  optf original = Some transformed ->
  isMeshValid transformed = true ->
  hashMesh original = Some h ->
  hashMesh transformed = Some h ->
  run mesh optf heap = (Returned _ _ _ (stats transformed), heap).
Proof.
  intros Hmesh Hoptf Hvalid Hh Hh'.
  unfold optimize. rewrite Hmesh, Hoptf, lookup_insert_eq.
  rewrite !lookup_insert_ne by (apply fresh_copy_ne; rewrite Hmesh; eauto).
  rewrite Hmesh, Hvalid, Hh, Hh', Z.eqb_refl. cbn [negb].
  rewrite insert_insert_eq, delete_insert_id by apply fresh_copy_unused.
  reflexivity.
Qed.

(** The no-op pass on a valid mesh. *)
Lemma optimize_optNone_run (heap : gmap positive Mesh) (mesh : positive)
    (original : Mesh) :
  heap !! mesh = Some original ->
  isMeshValid original = true ->
  run mesh optNone heap = (Returned _ _ _ (stats original), heap).
Proof.
  intros Hmesh Hvalid. destruct (hashMesh_defined original Hvalid) as [h Hh].
  apply (optimize_accepts heap mesh optNone original original h); auto.
Qed.

(** X11. Run on the no-op pass, [optimize] returns the statistics of
    the mesh and leaves the store as it found it when the mesh is valid,
    and stops at the validity assertion when it is not: the fingerprint
    comparison cannot fail for [optNone]. *)
Theorem optimize_optNone (heap : gmap positive Mesh) (mesh : positive)
    (original : Mesh) :
  heap !! mesh = Some original ->
  (run mesh optNone heap).1 =
    (if isMeshValid original then Returned _ _ _ (stats original)
     else Aborted _ _ _ AssertValid) /\
  (isMeshValid original = true -> (run mesh optNone heap).2 = heap).
Proof.
  intros Hmesh. destruct (isMeshValid original) eqn:Hvalid.
  - rewrite (optimize_optNone_run heap mesh original Hmesh Hvalid). auto.
  - split; [|discriminate].
    rewrite (optimize_status _ _ _ heap mesh optNone original original Hmesh eq_refl).
    rewrite Hvalid. reflexivity.
Qed.

(** The shuffle on a valid mesh with a triangle. *)
Lemma optimize_optRandomShuffle_run (heap : gmap positive Mesh) (mesh : positive)
    (original : Mesh) :
  heap !! mesh = Some original ->
  isMeshValid original = true ->
  (3 <= length (indices original))%nat ->
  Z.of_nat (length (indices original)) < 2 ^ 64 ->
  exists transformed,
    optRandomShuffle_pass original = Some transformed /\
    Permutation (indices transformed) (indices original) /\
    run mesh optRandomShuffle_pass heap = (Returned _ _ _ (stats transformed), heap).
Proof.
  intros Hmesh Hvalid Htri Hsize.
  destruct (optRandomShuffle_spec (S (length (indices original))) original Hsize Htri)
    as (transformed & Hrun & Hvs & HP & Hperm & Hvalid').
  { pose proof (Nat.Div0.div_le_upper_bound (length (indices original)) 3
                  (length (indices original))). lia. }
  assert (optRandomShuffle_pass original = Some transformed) as Hpass
    by (unfold optRandomShuffle_pass; rewrite Hrun; reflexivity).
  exists transformed. split; [exact Hpass|]. split; [exact Hperm|].
  destruct (hashMesh_defined original Hvalid) as [h Hh].
  apply (optimize_accepts heap mesh _ original transformed h); auto.
  - congruence.
  - rewrite <- Hh, !hashMesh_triples, Hvs. apply hashTriples_Permutation, HP.
Qed.

(** X12. Run on [optRandomShuffle], [optimize] accepts every valid mesh
    with at least one triangle: both assertions hold, the statistics are
    those of the shuffled copy, and the store is given back unchanged. *)
Theorem optimize_optRandomShuffle (heap : gmap positive Mesh) (mesh : positive)
    (original : Mesh) :
  heap !! mesh = Some original ->
  isMeshValid original = true ->
  (3 <= length (indices original))%nat ->
  Z.of_nat (length (indices original)) < 2 ^ 64 ->
  exists transformed,
    optRandomShuffle_pass original = Some transformed /\
    Permutation (indices transformed) (indices original) /\
    run mesh optRandomShuffle_pass heap = (Returned _ _ _ (stats transformed), heap).
Proof. apply optimize_optRandomShuffle_run. Qed.

End HarnessPasses.

Lemma optimize_optNone_witness :
  unit_plane_store !! 1%positive = Some unit_plane /\
  isMeshValid unit_plane = true /\
  (optimize unit unit unit (fun _ _ _ _ _ _ => tt) (fun _ _ _ _ => tt)
     (fun _ _ _ _ _ => tt) 1%positive optNone unit_plane_store).2 = unit_plane_store.
Proof.
  assert (unit_plane_store !! 1%positive = Some unit_plane) as H
    by apply lookup_singleton_eq.
  assert (isMeshValid unit_plane = true) as Hv by reflexivity.
  split; [exact H|]. split; [exact Hv|].
  apply (optimize_optNone (fun _ _ _ _ _ _ => tt) (fun _ _ _ _ => tt)
           (fun _ _ _ _ _ => tt) unit_plane_store 1%positive unit_plane H), Hv.
Defined.

Lemma optimize_optRandomShuffle_witness :
  (unit_plane_store !! 1%positive = Some unit_plane /\
   isMeshValid unit_plane = true /\
   (3 <= length (indices unit_plane))%nat /\
   Z.of_nat (length (indices unit_plane)) < 2 ^ 64) /\
  exists transformed,
    optRandomShuffle_pass unit_plane = Some transformed /\
    Permutation (indices transformed) (indices unit_plane) /\
    optimize unit unit unit (fun _ _ _ _ _ _ => tt) (fun _ _ _ _ => tt)
      (fun _ _ _ _ _ => tt) 1%positive optRandomShuffle_pass unit_plane_store =
    (Returned _ _ _ (analyze unit unit unit (fun _ _ _ _ _ _ => tt) (fun _ _ _ _ => tt)
                       (fun _ _ _ _ _ => tt) transformed), unit_plane_store).
Proof.
  assert (unit_plane_store !! 1%positive = Some unit_plane) as H
    by apply lookup_singleton_eq.
  assert (isMeshValid unit_plane = true) as Hv by reflexivity.
  assert (3 <= length (indices unit_plane))%nat as H3 by (vm_compute; lia).
  assert (Z.of_nat (length (indices unit_plane)) < 2 ^ 64) as Hs
    by (vm_compute; reflexivity).
  split; [auto|].
  apply (optimize_optRandomShuffle (fun _ _ _ _ _ _ => tt) (fun _ _ _ _ => tt)
           (fun _ _ _ _ _ => tt) unit_plane_store 1%positive unit_plane H Hv H3 Hs).
Defined.

(** ** [generatePlane] *)

Lemma length_bind_const {A B : Type} (f : A -> list B) (k : nat) (l : list A) :
  (forall x, length (f x) = k) -> length (l ≫= f) = (length l * k)%nat.
Proof.
  intros Hf. induction l as [|x l IH]; [reflexivity|].
  rewrite bind_cons, length_app, Hf, IH. simpl. lia.
Qed.

Section GeneratePlaneProperties.

Context (float_of_uint : Z -> float) (float_div : float -> float -> float).

#[local] Abbreviation plane := (generatePlane float_of_uint float_div).

Lemma generatePlane_vertex_count (N : Z) :
  0 <= N ->
  length (vertices (plane N)) = Z.to_nat ((N + 1) * (N + 1)).
Proof.
  intros HN. unfold generatePlane. cbn [vertices].
  rewrite (length_bind_const _ (Z.to_nat (N + 1))).
  - rewrite length_seqZ, Z2Nat.inj_mul by lia. reflexivity.
  - intros y. rewrite (length_bind_const _ 1%nat) by reflexivity.
    rewrite length_seqZ. lia.
Qed.

Lemma generatePlane_index_count (N : Z) :
  0 <= N ->
  length (indices (plane N)) = (Z.to_nat N * Z.to_nat N * 6)%nat.
Proof.
  intros HN. unfold generatePlane. cbn [indices].
  rewrite (length_bind_const _ (Z.to_nat N * 6)%nat).
  - rewrite length_seqZ. lia.
  - intros y. rewrite (length_bind_const _ 6%nat) by reflexivity.
    rewrite length_seqZ. reflexivity.
Qed.

Lemma generatePlane_cell_range (N x y : Z) :
  0 <= x < N -> 0 <= y < N ->
  Forall (fun index => Z.of_N index < (N + 1) * (N + 1)) (generatePlane_cell N x y).
Proof.
  intros Hx Hy. unfold generatePlane_cell.
  assert (forall e, 0 <= e < (N + 1) * (N + 1) ->
                    Z.of_N (Z.to_N (u32 e)) < (N + 1) * (N + 1)) as Hu.
  { intros e He. pose proof (u32_range e).
    pose proof (Z.mod_le e (2 ^ 32) ltac:(lia) ltac:(lia)).
    unfold u32 in *. lia. }
  repeat constructor; apply Hu; nia.
Qed.

Lemma generatePlane_isMeshValid (N : Z) :
  0 <= N -> isMeshValid (plane N) = true.
Proof.
  intros HN. apply isMeshValid_true_iff. split.
  - rewrite generatePlane_index_count by exact HN.
    replace (Z.to_nat N * Z.to_nat N * 6)%nat
      with (Z.to_nat N * Z.to_nat N * 2 * 3)%nat by lia.
    apply Nat.Div0.mod_mul.
  - rewrite generatePlane_vertex_count by exact HN.
    unfold generatePlane. cbn [indices].
    apply Forall_bind, Forall_forall. intros y Hy. apply elem_of_seqZ in Hy.
    apply Forall_bind, Forall_forall. intros x Hx. apply elem_of_seqZ in Hx.
    eapply Forall_impl; [apply (generatePlane_cell_range N x y); lia|].
    intros index Hindex. cbv beta in Hindex. lia.
Qed.

(** X13. For every [N] the loops of [generatePlane] end on, the plane
    has [(N + 1)^2] vertices and [6 * N^2] indices and passes
    [isMeshValid], whatever the floating point operations compute and
    even when the index arithmetic wraps around [2^32]. *)
Theorem generatePlane_valid (N : Z) :
  0 <= N < 2 ^ 32 - 1 ->
  length (vertices (plane N)) = Z.to_nat ((N + 1) * (N + 1)) /\
  length (indices (plane N)) = Z.to_nat (6 * N * N) /\
  isMeshValid (plane N) = true.
Proof.
  intros HN. split; [apply generatePlane_vertex_count; lia|]. split.
  - rewrite generatePlane_index_count by lia.
    rewrite !Z2Nat.inj_mul by lia. change (Z.to_nat 6) with 6%nat. lia.
  - apply generatePlane_isMeshValid. lia.
Qed.

End GeneratePlaneProperties.

Lemma generatePlane_valid_witness :
  0 <= 1 < 2 ^ 32 - 1 /\
  generatePlane (fun x => if x =? 0 then float_0 else float_1) (fun a _ => a) 1 =
    unit_plane /\
  isMeshValid
    (generatePlane (fun x => if x =? 0 then float_0 else float_1) (fun a _ => a) 1) =
    true.
Proof.
  assert (0 <= 1 < 2 ^ 32 - 1) as H by lia.
  split; [exact H|]. split; [reflexivity|].
  apply (generatePlane_valid (fun x => if x =? 0 then float_0 else float_1)
           (fun a _ => a) 1 H).
Defined.

(** ** The demo's run on the generated plane *)

Section Demo.

Context {VertexCacheStatistics VertexFetchStatistics OverdrawStatistics : Type}.
Context (analyzeVertexCache :
           list N -> nat -> nat -> nat -> nat -> nat -> VertexCacheStatistics).
Context (analyzeVertexFetch : list N -> nat -> nat -> nat -> VertexFetchStatistics).
Context (analyzeOverdraw :
           list N -> nat -> list Vertex -> nat -> nat -> OverdrawStatistics).
Context (float_of_uint : Z -> float) (float_div : float -> float -> float).

#[local] Abbreviation run :=
  (optimize _ _ _ analyzeVertexCache analyzeVertexFetch analyzeOverdraw).
#[local] Abbreviation stats :=
  (analyze _ _ _ analyzeVertexCache analyzeVertexFetch analyzeOverdraw).
#[local] Abbreviation plane := (generatePlane float_of_uint float_div).

(** X14. The first two benchmark runs of [process] on the generated
    plane cannot trip an assertion: for every plane with at least one
    cell whose index buffer fits the address space, [optimize] returns
    statistics for [optNone] and for [optRandomShuffle] and gives the
    store back unchanged. *)
Theorem optimize_generatePlane (heap : gmap positive Mesh) (mesh : positive) (N : Z) :
  1 <= N ->
  6 * N * N < 2 ^ 64 ->
  heap !! mesh = Some (plane N) ->
  run mesh optNone heap = (Returned _ _ _ (stats (plane N)), heap) /\
  exists transformed,
    optRandomShuffle_pass (plane N) = Some transformed /\
    run mesh optRandomShuffle_pass heap = (Returned _ _ _ (stats transformed), heap).
Proof.
  intros HN Hsize Hmesh.
  pose proof (generatePlane_isMeshValid float_of_uint float_div N ltac:(lia)) as Hvalid.
  pose proof (generatePlane_index_count float_of_uint float_div N ltac:(lia)) as Hcount.
  split; [apply optimize_optNone_run; assumption|].
  destruct (optimize_optRandomShuffle_run analyzeVertexCache analyzeVertexFetch
              analyzeOverdraw heap mesh (plane N) Hmesh Hvalid)
    as (transformed & Hpass & _ & Hrun).
  - rewrite Hcount. nia.
  - rewrite Hcount. nia.
  - exists transformed. auto.
Qed.

End Demo.

Lemma optimize_generatePlane_witness :
  (1 <= 1 /\ 6 * 1 * 1 < 2 ^ 64 /\
   unit_plane_store !! 1%positive =
     Some (generatePlane (fun x => if x =? 0 then float_0 else float_1)
             (fun a _ => a) 1)) /\
  optimize unit unit unit (fun _ _ _ _ _ _ => tt) (fun _ _ _ _ => tt)
    (fun _ _ _ _ _ => tt) 1%positive optNone unit_plane_store =
  (Returned _ _ _ (analyze unit unit unit (fun _ _ _ _ _ _ => tt) (fun _ _ _ _ => tt)
                     (fun _ _ _ _ _ => tt) unit_plane), unit_plane_store).
Proof.
  assert (unit_plane_store !! 1%positive =
            Some (generatePlane (fun x => if x =? 0 then float_0 else float_1)
                    (fun a _ => a) 1)) as H by apply lookup_singleton_eq.
  split; [split; [lia | split; [reflexivity | exact H]]|].
  apply (optimize_generatePlane (fun _ _ _ _ _ _ => tt) (fun _ _ _ _ => tt)
           (fun _ _ _ _ _ => tt) (fun x => if x =? 0 then float_0 else float_1)
           (fun a _ => a) unit_plane_store 1%positive 1); [lia | reflexivity | exact H].
Defined.

(** ** The assertion loop of [encodeIndex] *)

Lemma encodeIndex_assert_test (r0 r1 r2 i0 i1 i2 : N) :
  ((r0 =? i0) && (r1 =? i1) && (r2 =? i2) ||
   (r1 =? i0) && (r2 =? i1) && (r0 =? i2) ||
   (r2 =? i0) && (r0 =? i1) && (r1 =? i2))%N = true <->
  rotationOf (r0, r1, r2) (i0, i1, i2).
Proof.
  unfold rotationOf. cbn [fst snd].
  rewrite !orb_true_iff, !andb_true_iff, !N.eqb_eq.
  split.
  - intros [[[[-> ->] ->]|[[-> ->] ->]]|[[-> ->] ->]]; auto.
  - intros [[= -> -> ->]|[[= -> -> ->]|[= -> -> ->]]]; auto.
Qed.

Lemma encodeIndex_assert_spec (original : list N) :
  forall result,
    length result = length original ->
    (encodeIndex_assert result original = Some true <->
     (length original mod 3 = 0)%nat /\
     Forall2 rotationOf (triples result) (triples original)).
Proof.
  induction original as [|a|a b|a b c original IH] using list_ind3;
    intros result Hlen.
  - destruct result; [|discriminate]. cbn. split; [auto using Forall2_nil_2|reflexivity].
  - destruct result as [|r0 [|r1 result]]; try discriminate.
    cbn. split; [discriminate | intros [? _]; discriminate].
  - destruct result as [|r0 [|r1 [|r2 result]]]; try discriminate.
    cbn. split; [discriminate | intros [? _]; discriminate].
  - destruct result as [|r0 [|r1 [|r2 result]]]; try discriminate.
    cbn [length] in Hlen. injection Hlen as Hlen.
    cbn [encodeIndex_assert triples length].
    replace (S (S (S (length original))) mod 3)%nat with (length original mod 3)%nat
      by (replace (S (S (S (length original)))) with (length original + 1 * 3)%nat by lia;
          rewrite Nat.Div0.mod_add; reflexivity).
    pose proof (encodeIndex_assert_test r0 r1 r2 a b c) as Htest.
    destruct (_ || _)%bool.
    + rewrite (IH result Hlen). split.
      * intros [Hmod Hall]. split; [exact Hmod|]. constructor; [tauto | exact Hall].
      * intros [Hmod Hall]. inversion Hall; subst. auto.
    + split; [discriminate|]. intros [_ Hall]. inversion Hall; subst.
      destruct Htest as [_ Htest]. discriminate Htest. assumption.
Qed.

(** X15. The closing assertions of [encodeIndex] hold exactly when the
    index count is a multiple of 3 and every decoded triangle is the
    input triangle at the same place, rotated by zero, one or two
    places. *)
Theorem encodeIndex_assert_iff (result original : list N) :
  length result = length original ->
  (encodeIndex_assert result original = Some true <->
   (length original mod 3 = 0)%nat /\
   Forall2 rotationOf (triples result) (triples original)).
Proof. apply encodeIndex_assert_spec. Qed.

Lemma encodeIndex_assert_iff_witness :
  length [1; 2; 0; 3; 2; 1]%N = length (indices unit_plane) /\
  encodeIndex_assert [1; 2; 0; 3; 2; 1]%N (indices unit_plane) = Some true /\
  Forall2 rotationOf (triples [1; 2; 0; 3; 2; 1]%N) (triples (indices unit_plane)).
Proof.
  assert (length [1; 2; 0; 3; 2; 1]%N = length (indices unit_plane)) as H
    by reflexivity.
  split; [exact H|]. split; [reflexivity|].
  apply (encodeIndex_assert_iff [1; 2; 0; 3; 2; 1]%N (indices unit_plane) H).
  reflexivity.
Defined.

(** X16. A decoded index buffer that passes the assertions of
    [encodeIndex] has, over any vertex buffer, the fingerprint of the
    mesh that was encoded: what the codec check accepts, the oracle of
    [optimize] accepts too. *)
Theorem encodeIndex_assert_hashMesh (vs : list Vertex) (result original : list N) :
  length result = length original ->
  encodeIndex_assert result original = Some true ->
  hashMesh (mkMesh vs result) = hashMesh (mkMesh vs original).
Proof.
  intros Hlen Hassert. apply hashMesh_rotationOf.
  apply (encodeIndex_assert_spec original result Hlen), Hassert.
Qed.

Lemma encodeIndex_assert_hashMesh_witness :
  (length [1; 2; 0; 3; 2; 1]%N = length (indices unit_plane) /\
   encodeIndex_assert [1; 2; 0; 3; 2; 1]%N (indices unit_plane) = Some true) /\
  hashMesh (mkMesh (vertices unit_plane) [1; 2; 0; 3; 2; 1]%N) = hashMesh unit_plane.
Proof.
  split; [split; reflexivity|].
  apply (encodeIndex_assert_hashMesh (vertices unit_plane)
           [1; 2; 0; 3; 2; 1]%N (indices unit_plane)); reflexivity.
Defined.

(** ** The distinct vertex count of [shadow] *)

Lemma seen_insert_size (index : N) (seen : gset N) :
  Z.of_nat (size ({[index]} ∪ seen)) =
  Z.of_nat (size seen) + (1 - (if decide (index ∈ seen) then 1 else 0)).
Proof.
  destruct (decide (index ∈ seen)) as [Hin|Hout].
  - rewrite (subseteq_union_1_L {[index]} seen) by (apply singleton_subseteq_l, Hin).
    lia.
  - rewrite size_union by (apply disjoint_singleton_l, Hout).
    rewrite size_singleton. lia.
Qed.

Lemma shadow_count_loop_spec (vertex_count : nat) (shadow_indices : list N) :
  forall (shadow_flags : list Z) (seen : gset N),
    length shadow_flags = vertex_count ->
    (forall index, (N.to_nat index < vertex_count)%nat ->
       shadow_flags !! N.to_nat index = Some (if decide (index ∈ seen) then 1 else 0)) ->
    Forall (fun index => (N.to_nat index < vertex_count)%nat) shadow_indices ->
    Z.of_nat (size seen) + Z.of_nat (length shadow_indices) < 2 ^ 64 ->
    shadow_count_loop shadow_indices shadow_flags (Z.of_nat (size seen)) =
      Some (Z.of_nat (size (seen ∪ list_to_set shadow_indices))).
Proof.
  induction shadow_indices as [|index rest IH];
    intros shadow_flags seen Hlen Hflags Hrange Hsize.
  - cbn [shadow_count_loop list_to_set foldr]. rewrite (right_id_L ∅ (∪)). reflexivity.
  - apply Forall_cons in Hrange as [Hindex Hrest].
    cbn [shadow_count_loop]. rewrite (Hflags index Hindex).
    cbn [mbind option_bind]. cbn [length] in Hsize.
    pose proof (seen_insert_size index seen) as Hgrow.
    rewrite list_to_set_cons, (assoc_L (∪)), (comm_L (∪) seen {[index]}).
    rewrite usize_small, <- Hgrow
      by (destruct (decide (index ∈ seen)); lia).
    apply IH.
    + rewrite length_insert. exact Hlen.
    + intros k Hk. destruct (decide (k = index)) as [->|Hne].
      * rewrite list_lookup_insert_eq by lia.
        rewrite decide_True; [reflexivity|].
        apply elem_of_union_l, elem_of_singleton. reflexivity.
      * rewrite list_lookup_insert_ne by lia.
        rewrite (Hflags k Hk).
        destruct (decide (k ∈ seen)) as [Hin|Hout].
        -- rewrite decide_True; [reflexivity | apply elem_of_union_r, Hin].
        -- rewrite decide_False; [reflexivity|].
           intros [Hk'|Hk']%elem_of_union; [|contradiction].
           apply elem_of_singleton in Hk'. contradiction.
    + exact Hrest.
    + destruct (decide (index ∈ seen)); lia.
Qed.

(** X17. The number [shadow] prints as "shadow vertices" is the number
    of distinct values in the shadow index buffer, provided every index
    addresses a vertex. *)
Theorem shadow_count_distinct (vertex_count : nat) (shadow_indices : list N) :
  Forall (fun index => (N.to_nat index < vertex_count)%nat) shadow_indices ->
  Z.of_nat (length shadow_indices) < 2 ^ 64 ->
  shadow_count vertex_count shadow_indices =
    Some (Z.of_nat (size (list_to_set shadow_indices : gset N))).
Proof.
  intros Hrange Hsize. unfold shadow_count.
  pose proof (shadow_count_loop_spec vertex_count shadow_indices
                (replicate vertex_count 0) ∅) as Hloop.
  rewrite size_empty, (left_id_L ∅ (∪)) in Hloop. apply Hloop.
  - apply length_replicate.
  - intros index Hindex. rewrite lookup_replicate_2 by exact Hindex.
    rewrite decide_False; [reflexivity | apply not_elem_of_empty].
  - exact Hrange.
  - lia.
Qed.

Lemma shadow_count_distinct_witness :
  (Forall (fun index => (N.to_nat index < 4)%nat) (indices unit_plane) /\
   Z.of_nat (length (indices unit_plane)) < 2 ^ 64) /\
  shadow_count 4 (indices unit_plane) = Some 4.
Proof.
  assert (Forall (fun index => (N.to_nat index < 4)%nat) (indices unit_plane)) as H1
    by (repeat constructor).
  assert (Z.of_nat (length (indices unit_plane)) < 2 ^ 64) as H2
    by (vm_compute; reflexivity).
  split; [auto|].
  rewrite (shadow_count_distinct 4 (indices unit_plane) H1 H2). reflexivity.
Defined.

(** ** The LOD index buffer of [simplify] *)

Lemma memcpy_at_middle (pre mid post src : list N) (offset : nat) :
  offset = length pre -> length mid = length src ->
  memcpy_at (pre ++ mid ++ post) offset src = Some (pre ++ src ++ post).
Proof.
  intros -> Hmid. unfold memcpy_at.
  rewrite !length_app, <- Hmid.
  destruct (Nat.leb_spec (length pre + length mid)
              (length pre + (length mid + length post))) as [_|]; [|lia].
  rewrite take_app_length.
  rewrite (assoc_L (++) pre mid post), <- (length_app pre mid), drop_app_length.
  reflexivity.
Qed.

Lemma slice_middle (pre x post : list N) (offset : nat) :
  offset = length pre -> take (length x) (drop offset (pre ++ x ++ post)) = x.
Proof. intros ->. rewrite drop_app_length, take_app_length. reflexivity. Qed.

(** The five [memcpy]s, one after the other, on a zeroed buffer of the
    total size. *)
Lemma simplify_copy_loop_spec (l0 l1 l2 l3 l4 : list N) :
  simplify_copy_loop lod_count 0 [l0; l1; l2; l3; l4]
    [(length l4 + length l3 + length l2 + length l1)%nat;
     (length l4 + length l3 + length l2)%nat;
     (length l4 + length l3)%nat; length l4; 0%nat]
    (replicate (length l4 + length l3 + length l2 + length l1 + length l0) 0%N)
  = Some (l4 ++ l3 ++ l2 ++ l1 ++ l0).
Proof.
  set (r0 := replicate (length l0) 0%N). set (r1 := replicate (length l1) 0%N).
  set (r2 := replicate (length l2) 0%N). set (r3 := replicate (length l3) 0%N).
  set (r4 := replicate (length l4) 0%N).
  assert (length r0 = length l0 /\ length r1 = length l1 /\ length r2 = length l2 /\
          length r3 = length l3 /\ length r4 = length l4) as (H0 & H1 & H2 & H3 & H4)
    by (subst r0 r1 r2 r3 r4; rewrite !length_replicate; auto).
  assert (replicate (length l4 + length l3 + length l2 + length l1 + length l0) 0%N
          = (r4 ++ r3 ++ r2 ++ r1) ++ r0 ++ []) as ->
    by (subst r0 r1 r2 r3 r4; rewrite !replicate_add, app_nil_r, <- !app_assoc;
        reflexivity).
  unfold lod_count. cbn [simplify_copy_loop lookup list_lookup mbind option_bind].
  rewrite memcpy_at_middle by (rewrite ?length_app; lia).
  cbn [mbind option_bind].
  replace ((r4 ++ r3 ++ r2 ++ r1) ++ l0 ++ []) with ((r4 ++ r3 ++ r2) ++ r1 ++ l0)
    by (rewrite app_nil_r, <- !app_assoc; reflexivity).
  rewrite memcpy_at_middle by (rewrite ?length_app; lia).
  cbn [mbind option_bind].
  replace ((r4 ++ r3 ++ r2) ++ l1 ++ l0) with ((r4 ++ r3) ++ r2 ++ l1 ++ l0)
    by (rewrite <- !app_assoc; reflexivity).
  rewrite memcpy_at_middle by (rewrite ?length_app; lia).
  cbn [mbind option_bind].
  replace ((r4 ++ r3) ++ l2 ++ l1 ++ l0) with (r4 ++ r3 ++ l2 ++ l1 ++ l0)
    by (rewrite <- !app_assoc; reflexivity).
  rewrite memcpy_at_middle by lia.
  cbn [mbind option_bind].
  change (r4 ++ l3 ++ l2 ++ l1 ++ l0) with ([] ++ r4 ++ l3 ++ l2 ++ l1 ++ l0).
  rewrite memcpy_at_middle by (cbn [length]; lia).
  reflexivity.
Qed.

(** X18. The five LODs are laid out coarsest first: the buffer is
    [lods[4] ++ lods[3] ++ lods[2] ++ lods[1] ++ lods[0]], and for every
    LOD the recorded offset and count cut exactly that LOD back out of
    the buffer. *)
Theorem simplify_concatenate_slices (lods : list (list N)) :
  length lods = lod_count ->
  exists lod_index_offsets lod_index_counts indices,
    simplify_concatenate lods = Some (lod_index_offsets, lod_index_counts, indices) /\
    indices = concat (reverse lods) /\
    forall i lod,
      lods !! i = Some lod ->
      exists offset,
        lod_index_offsets !! i = Some offset /\
        lod_index_counts !! i = Some (length lod) /\
        take (length lod) (drop offset indices) = lod.
Proof.
  intros Hlen.
  destruct lods as [|l0 [|l1 [|l2 [|l3 [|l4 [|]]]]]]; try discriminate.
  unfold simplify_concatenate.
  replace (simplify_offsets_loop lod_count [l0; l1; l2; l3; l4]
             (replicate lod_count 0%nat) (replicate lod_count 0%nat) 0%nat)
    with (Some ([(length l4 + length l3 + length l2 + length l1)%nat;
                 (length l4 + length l3 + length l2)%nat;
                 (length l4 + length l3)%nat; length l4; 0%nat],
                [length l0; length l1; length l2; length l3; length l4],
                (length l4 + length l3 + length l2 + length l1 + length l0)%nat))
    by reflexivity.
  cbn [mbind option_bind fst snd]. rewrite simplify_copy_loop_spec.
  cbn [mbind option_bind].
  do 3 eexists. split; [reflexivity|]. split.
  { cbn. rewrite app_nil_r. reflexivity. }
  intros i lod Hi.
  destruct i as [|[|[|[|[|i]]]]]; cbn in Hi; try discriminate;
    injection Hi as <-; eexists; (split; [reflexivity|]); (split; [reflexivity|]).
  - replace (l4 ++ l3 ++ l2 ++ l1 ++ l0) with ((l4 ++ l3 ++ l2 ++ l1) ++ l0 ++ [])
      by (rewrite app_nil_r, <- !app_assoc; reflexivity).
    apply slice_middle. rewrite !length_app. lia.
  - replace (l4 ++ l3 ++ l2 ++ l1 ++ l0) with ((l4 ++ l3 ++ l2) ++ l1 ++ l0)
      by (rewrite <- !app_assoc; reflexivity).
    apply slice_middle. rewrite !length_app. lia.
  - replace (l4 ++ l3 ++ l2 ++ l1 ++ l0) with ((l4 ++ l3) ++ l2 ++ l1 ++ l0)
      by (rewrite <- !app_assoc; reflexivity).
    apply slice_middle. rewrite !length_app. lia.
  - apply slice_middle. reflexivity.
  - apply (slice_middle [] l4 (l3 ++ l2 ++ l1 ++ l0)). reflexivity.
Qed.

Lemma simplify_concatenate_slices_witness :
  length [[0; 1; 2; 2; 1; 3]; [0; 1; 2]; []; []; []]%N = lod_count /\
  exists lod_index_offsets lod_index_counts indices,
    simplify_concatenate [[0; 1; 2; 2; 1; 3]; [0; 1; 2]; []; []; []]%N =
      Some (lod_index_offsets, lod_index_counts, indices) /\
    indices = [0; 1; 2; 0; 1; 2; 2; 1; 3]%N.
Proof.
  assert (length [[0; 1; 2; 2; 1; 3]; [0; 1; 2]; []; []; []]%N = lod_count) as H
    by reflexivity.
  split; [exact H|].
  destruct (simplify_concatenate_slices _ H)
    as (offsets & counts & buffer & Hrun & Hcat & _).
  exists offsets, counts, buffer. split; [exact Hrun | exact Hcat].
Defined.

(** ** The codec coverage tests *)

Lemma coverage_encode_loop_spec (encode : nat -> nat) (size : nat) :
  coverage_encode_loop encode size = true <->
  (forall i, (i < size)%nat -> encode i = 0%nat) /\ encode size = size.
Proof.
  unfold coverage_encode_loop. rewrite forallb_forall. split.
  - intros H. split.
    + intros i Hi. specialize (H i). rewrite in_seq in H.
      specialize (H ltac:(lia)). cbv zeta in H.
      destruct (Nat.eqb_spec i size); [lia|]. apply Nat.eqb_eq, H.
    + specialize (H size). rewrite in_seq in H. specialize (H ltac:(lia)).
      cbv zeta in H. rewrite Nat.eqb_refl in H. apply Nat.eqb_eq, H.
  - intros [Hbelow Hfull] i Hi. apply in_seq in Hi. cbv zeta.
    destruct (Nat.eqb_spec i size) as [->|Hne].
    + apply Nat.eqb_eq, Hfull.
    + apply Nat.eqb_eq, Hbelow. lia.
Qed.

Lemma coverage_decode_loop_spec (decode : list byte -> Z) (buffer : list byte) :
  coverage_decode_loop decode buffer = true <->
  (forall i, (i < length buffer)%nat -> decode (take i buffer) < 0) /\
  decode buffer = 0.
Proof.
  unfold coverage_decode_loop. rewrite forallb_forall. split.
  - intros H. split.
    + intros i Hi. specialize (H i). rewrite in_seq in H.
      specialize (H ltac:(lia)). cbv zeta in H.
      destruct (Nat.eqb_spec i (length buffer)); [lia|]. apply Z.ltb_lt, H.
    + specialize (H (length buffer)). rewrite in_seq in H.
      specialize (H ltac:(lia)). cbv zeta in H.
      rewrite Nat.eqb_refl, firstn_all in H. apply Z.eqb_eq, H.
  - intros [Hprefix Hfull] i Hi. apply in_seq in Hi. cbv zeta.
    destruct (Nat.eqb_spec i (length buffer)) as [->|Hne].
    + rewrite firstn_all. apply Z.eqb_eq, Hfull.
    + apply Z.ltb_lt, Hprefix. lia.
Qed.

(** What it takes for the checks after the first encode to pass. *)
Lemma coverage_checks_spec (encode : nat -> nat) (decode : list byte -> Z)
    (buffer : list byte) :
  coverage_checks encode decode buffer = Passed <->
  (forall i, (i < length buffer)%nat -> encode i = 0%nat) /\
  encode (length buffer) = length buffer /\
  (forall i, (i < length buffer)%nat -> decode (take i buffer) < 0) /\
  decode buffer = 0 /\
  decode (buffer ++ [x00]) < 0 /\
  buffer <> [] /\
  decode (<[0%nat := x00]> buffer) < 0.
Proof.
  unfold coverage_checks.
  pose proof (coverage_encode_loop_spec encode (length buffer)) as He.
  pose proof (coverage_decode_loop_spec decode buffer) as Hd.
  destruct (coverage_encode_loop encode (length buffer)); cbn [negb].
  2: { split; [discriminate|]. intros (H1 & H2 & _).
       destruct He as [_ He]. discriminate He. auto. }
  destruct (coverage_decode_loop decode buffer); cbn [negb].
  2: { split; [discriminate|]. intros (_ & _ & H3 & H4 & _).
       destruct Hd as [_ Hd]. discriminate Hd. auto. }
  destruct (Z.ltb_spec (decode (buffer ++ [x00])) 0) as [Hlarge|Hlarge]; cbn [negb].
  2: { split; [discriminate|]. intros (_ & _ & _ & _ & H5 & _). lia. }
  destruct buffer as [|b buffer].
  { split; [discriminate|]. intros (_ & _ & _ & _ & _ & H6 & _). contradiction. }
  destruct (Z.ltb_spec (decode (<[0%nat := x00]> (b :: buffer))) 0) as [Hbroken|Hbroken];
    cbn [negb].
  - split; [intros _|reflexivity].
    destruct He as [[He1 He2] _]; [reflexivity|].
    destruct Hd as [[Hd1 Hd2] _]; [reflexivity|].
    repeat split; auto.
  - split; [discriminate|]. intros (_ & _ & _ & _ & _ & _ & H7). lia.
Qed.

Section CoverageProperties.

Context (encodeIndexBufferBound : nat -> nat -> nat).
Context (encodeIndexBuffer : nat -> list N -> nat * list byte).
Context (decodeIndexBuffer : nat -> list byte -> Z).
Context (encodeVertexBufferBound : nat -> nat -> nat).
Context (encodeVertexBuffer :
           nat -> list PackedVertexOct -> nat -> nat -> nat * list byte).
Context (decodeVertexBuffer : nat -> nat -> list byte -> Z).

#[local] Abbreviation index_buffer :=
  (encodeIndexCoverage_buffer encodeIndexBufferBound encodeIndexBuffer).
#[local] Abbreviation index_encode :=
  (fun i : nat => (encodeIndexBuffer i encodeIndexCoverage_indices).1).
#[local] Abbreviation index_decode := (decodeIndexBuffer 12%nat).
#[local] Abbreviation vertex_buffer :=
  (encodeVertexCoverage_buffer encodeVertexBufferBound encodeVertexBuffer).
#[local] Abbreviation vertex_encode :=
  (fun i : nat => (encodeVertexBuffer i encodeVertexCoverage_vertices 4%nat 12%nat).1).
#[local] Abbreviation vertex_decode := (decodeVertexBuffer 4%nat 12%nat).

(** X19. [encodeIndexCoverage] runs through all its assertions exactly
    when, with [buffer] the stream of the first encode and [L] its
    length: encoding into every capacity below [L] returns 0 and into
    [L] returns [L]; decoding every proper prefix fails and decoding
    [buffer] returns 0; decoding [buffer] with a zero byte appended
    fails; and [buffer] is not empty and fails to decode once its first
    byte is zeroed. An encoder that produces nothing sends the test into
    the out-of-bounds write instead. *)
Theorem encodeIndexCoverage_passes_iff :
  encodeIndexCoverage encodeIndexBufferBound encodeIndexBuffer decodeIndexBuffer
    = Passed <->
  (forall i, (i < length index_buffer)%nat -> index_encode i = 0%nat) /\
  index_encode (length index_buffer) = length index_buffer /\
  (forall i, (i < length index_buffer)%nat -> index_decode (take i index_buffer) < 0) /\
  index_decode index_buffer = 0 /\
  index_decode (index_buffer ++ [x00]) < 0 /\
  index_buffer <> [] /\
  index_decode (<[0%nat := x00]> index_buffer) < 0.
Proof. apply coverage_checks_spec. Qed.

(** X20. The same for [encodeVertexCoverage] and the vertex codec on the
    four packed vertices, 12 bytes each. *)
Theorem encodeVertexCoverage_passes_iff :
  encodeVertexCoverage encodeVertexBufferBound encodeVertexBuffer decodeVertexBuffer
    = Passed <->
  (forall i, (i < length vertex_buffer)%nat -> vertex_encode i = 0%nat) /\
  vertex_encode (length vertex_buffer) = length vertex_buffer /\
  (forall i, (i < length vertex_buffer)%nat ->
             vertex_decode (take i vertex_buffer) < 0) /\
  vertex_decode vertex_buffer = 0 /\
  vertex_decode (vertex_buffer ++ [x00]) < 0 /\
  vertex_buffer <> [] /\
  vertex_decode (<[0%nat := x00]> vertex_buffer) < 0.
Proof. apply coverage_checks_spec. Qed.

End CoverageProperties.

Lemma encodeIndexCoverage_passes_iff_witness :
  encodeIndexCoverage (fun _ _ => 16%nat) (fun size _ => fixed_encode size)
    (fun _ => fixed_decode) = Passed /\
  fixed_decode
    (encodeIndexCoverage_buffer (fun _ _ => 16%nat) (fun size _ => fixed_encode size))
    = 0.
Proof.
  assert (encodeIndexCoverage (fun _ _ => 16%nat) (fun size _ => fixed_encode size)
            (fun _ => fixed_decode) = Passed) as H by reflexivity.
  split; [exact H|].
  apply (encodeIndexCoverage_passes_iff (fun _ _ => 16%nat)
           (fun size _ => fixed_encode size) (fun _ => fixed_decode)) in H.
  apply H.
Defined.

Lemma encodeVertexCoverage_passes_iff_witness :
  encodeVertexCoverage (fun _ _ => 16%nat) (fun size _ _ _ => fixed_encode size)
    (fun _ _ => fixed_decode) = Passed /\
  fixed_decode
    (encodeVertexCoverage_buffer (fun _ _ => 16%nat)
       (fun size _ _ _ => fixed_encode size))
    = 0.
Proof.
  assert (encodeVertexCoverage (fun _ _ => 16%nat) (fun size _ _ _ => fixed_encode size)
            (fun _ _ => fixed_decode) = Passed) as H by reflexivity.
  split; [exact H|].
  apply (encodeVertexCoverage_passes_iff (fun _ _ => 16%nat)
           (fun size _ _ _ => fixed_encode size) (fun _ _ => fixed_decode)) in H.
  apply H.
Defined.
